(** * command_processor: a reactive command pipeline

    Shallow embedding of [examples/python/command_processor.py] together
    with the part of the reactive library ([rx]) that the file drives:
    notifications, cold observables built by [rx.of], the [flat_map]
    operator and subscription with a plain function as consumer.

    The first part gives the model, the second evaluates it on the
    program's inputs, the third states and proves its properties. *)

From stdpp Require Import base option list strings gmap fin_maps.

Local Open Scope string_scope.
Local Open Scope list_scope.


(** * Model *)

(** ** Notifications *)

(** The cause carried by an [Error] notification: a Python exception,
    kept by its message. *)
Inductive exn : Type :=
  | Exception (msg : string).

(** Modelled from the spec: the notification type of the [rx] library,
    which is not under src/ (section 3). A closed three-variant value:
    [Next] carries a produced item, [Error] and [Completed] are the two
    terminal events. *)
Inductive Notification (T : Type) : Type :=
  | Next (value : T)
  | Error (cause : exn)
  | Completed.

Arguments Next {T} value.
Arguments Error {T} cause.
Arguments Completed {T}.

Definition is_next {T} (n : Notification T) : bool :=
  match n with
  | Next _ => true
  | _ => false
  end.

Definition is_terminal {T} (n : Notification T) : bool := negb (is_next n).

(** Modelled from the spec: [Notification.accept] of the [rx] library
    (not under src/), the visitor-style dispatch of section 4.3, called
    [reduce] there. It calls the handler of the
    notification's variant with the variant's payload (the value for
    [Next], the cause for [Error], nothing for [Completed]) and returns
    what that handler returns. *)
Definition accept {T R} (notif : Notification T)
    (on_next : T -> R) (on_error : exn -> R) (on_completed : unit -> R) : R :=
  match notif with
  | Next value => on_next value
  | Error cause => on_error cause
  | Completed => on_completed tt
  end.

(** A record of one handler invocation, to count the calls [accept] makes. *)
Inductive handler_call (T : Type) : Type :=
  | CalledNext (value : T)
  | CalledError (cause : exn)
  | CalledCompleted.

Arguments CalledNext {T} value.
Arguments CalledError {T} cause.
Arguments CalledCompleted {T}.

(** Handlers instrumented to log their own invocation next to their result. *)
Definition logged_next {T R} (h : T -> R) : T -> list (handler_call T) * R :=
  fun x => ([CalledNext x], h x).
Definition logged_error {T R} (h : exn -> R) : exn -> list (handler_call T) * R :=
  fun e => ([CalledError e], h e).
Definition logged_completed {T R} (h : unit -> R) : unit -> list (handler_call T) * R :=
  fun u => ([CalledCompleted], h u).

(** ** Observables *)

(** Modelled from the spec: the observable of the [rx] library, which is
    not under src/ (section 3). A cold observable is a description of
    what one execution emits: the script of notifications its producer
    pushes to a subscriber. It owns no state; a subscription
    ([Subscription] below) is a cursor over it. *)
Abbreviation Observable T := (list (Notification T)) (only parsing).

(** Modelled from the spec: [rx.of(items...)] of the [rx] library
    (section 4.1). Per subscription it emits [Next item] for each item in
    the given order, then [Completed]. *)
Definition rx_of {T} (items : list T) : Observable T :=
  map Next items ++ [Completed].

(** ** Worker invocations *)

(** How a call of a Python function ends: it returns a value or raises. *)
Inductive outcome (X : Type) : Type :=
  | Returned (x : X)
  | Raised (e : exn).

Arguments Returned {X} x.
Arguments Raised {X} e.

(** A call of a Python function, with what it does besides returning:
    [slept] is the time, in seconds, for which it blocked its caller. *)
Record Invocation (X : Type) : Type := MkInvocation {
  slept : nat;
  result : outcome X
}.

Arguments MkInvocation {X} slept result.
Arguments slept {X} _.
Arguments result {X} _.

Definition ret {X} (x : X) : Invocation X := MkInvocation 0 (Returned x).

Definition raise {X} (e : exn) : Invocation X := MkInvocation 0 (Raised e).

Definition bind {X Y} (m : Invocation X) (k : X -> Invocation Y) : Invocation Y :=
  match result m with
  | Returned x => MkInvocation (slept m + slept (k x)) (result (k x))
  | Raised e => MkInvocation (slept m) (Raised e)
  end.

(** [time.sleep(secs)]: blocks the caller for [secs] seconds, returns
    nothing. The source sleeps for the whole number [10.0]. *)
Definition time_sleep (secs : nat) : Invocation unit :=
  MkInvocation secs (Returned tt).

Notation "m ;;; k" := (bind m (fun _ => k))
  (at level 100, k at level 200, right associativity).

(** The per-item worker handed to [flat_map] (section 4.4): called on an
    item, it may block, and returns an observable or raises. *)
Definition Worker (A B : Type) : Type := A -> Invocation (Observable B).

(** ** The command worker *)

(** [cmd.startswith(p)]: whether [p] is a prefix of [cmd]. *)
Definition startswith (cmd p : string) : bool := String.prefix p cmd.

(** ["Invalid command {} provided.".format(cmd)]: only the template's
    replacement field is substituted, [cmd] is inserted verbatim. *)
Definition format_invalid (cmd : string) : string :=
  "Invalid command " +:+ cmd +:+ " provided.".

(** [process_command], lines 6-13 of the source. *)
Definition process_command : Worker string string := fun cmd =>
  if startswith cmd "echo" then
    ret (rx_of [cmd])
  else if startswith cmd "sleep" then
    time_sleep 10 ;;;
    ret (rx_of ["awake"])
  else
    ret (rx_of [format_invalid cmd]).

(** [process_command_timeout], lines 16-17 of the source. *)
Definition process_command_timeout : Worker string string := fun cmd =>
  process_command cmd.

(** The result string [process_command] computes for a command, branch
    by branch: what the [Next] of the returned observable carries. *)
Definition command_result (cmd : string) : string :=
  if startswith cmd "echo" then cmd
  else if startswith cmd "sleep" then "awake"
  else format_invalid cmd.

(** ** The terminal-mapping stage *)

(** [process_errors], lines 20-25 of the source: the three lambdas handed
    to [notif.accept]. *)
Definition process_errors (notif : Notification string) : string :=
  accept notif
    (fun x => x)
    (fun err => "Your command could not be processed. Please try again.")
    (fun _ => "No more commands to process. Shutting down!").

(** ** Subscriptions to a cold observable *)

(** Modelled from the spec: a subscription of the [rx] library (not
    under src/), one execution of an observable as section 3 describes
    it. [pending] is what the producer has still to emit, [None]
    once the subscription is closed (a terminal event was delivered, or
    the cancellation handle was called); [received] is what the consumer
    has been handed so far, oldest first. *)
Record Subscription (T : Type) : Type := MkSubscription {
  pending : option (list (Notification T));
  received : list (Notification T)
}.

Arguments MkSubscription {T} pending received.
Arguments pending {T} _.
Arguments received {T} _.

(** What can happen to a running subscription: its producer pushes its
    next notification, or its owner calls the cancellation handle. *)
Inductive action : Type :=
  | Emit
  | Dispose.

(** Modelled from the spec: [Observable.subscribe] of the [rx] library.
    Subscribing starts an independent execution with fresh state. *)
Definition subscribe {T} (o : Observable T) : Subscription T :=
  MkSubscription (Some o) [].

(** Modelled from the spec: one move of a subscription (sections 3 and
    4.1). A closed subscription delivers nothing; an emitted [Next] is
    handed over and the subscription stays open; a terminal event is
    handed over and closes it, whatever the script has after it. *)
Definition sub_step {T} (s : Subscription T) (a : action) : Subscription T :=
  match pending s with
  | None => s
  | Some script =>
      match a with
      | Dispose => MkSubscription None (received s)
      | Emit =>
          match script with
          | [] => s
          | Next v :: rest => MkSubscription (Some rest) (received s ++ [Next v])
          | t :: _ => MkSubscription None (received s ++ [t])
          end
      end
  end.

Definition sub_run {T} (acts : list action) (s : Subscription T) : Subscription T :=
  fold_left sub_step acts s.

(** What a subscription left to run to its end hands to its consumer. *)
Definition emissions {T} (o : Observable T) : list (Notification T) :=
  received (sub_run (repeat Emit (length o)) (subscribe o)).

(** What a subscription to the observable a worker returns for [cmd]
    receives under the actions [acts]; [None] if the worker raises. *)
Definition worker_stream {A B} (w : Worker A B) (a : A) (acts : list action)
    : option (list (Notification B)) :=
  match result (w a) with
  | Returned o => Some (received (sub_run acts (subscribe o)))
  | Raised _ => None
  end.

(** Two subscriptions held side by side; [true] advances the first one
    and [false] the second. *)
Definition pair_step {T} (ss : Subscription T * Subscription T) (first : bool)
    : Subscription T * Subscription T :=
  if first then (sub_step ss.1 Emit, ss.2) else (ss.1, sub_step ss.2 Emit).

Definition pair_run {T} (sched : list bool) (ss : Subscription T * Subscription T)
    : Subscription T * Subscription T :=
  fold_left pair_step sched ss.

(** The number of moves the schedule gives to the first ([true]) or to
    the second ([false]) subscription. *)
Fixpoint turns (who : bool) (sched : list bool) : nat :=
  match sched with
  | [] => 0
  | b :: rest => (if Bool.eqb who b then 1 else 0) + turns who rest
  end.

(** ** The notification invariant *)

(** The notification invariant of section 3: zero or more [Next], then at
    most one terminal event, then nothing. *)
Fixpoint well_formed {T} (l : list (Notification T)) : bool :=
  match l with
  | [] => true
  | Next _ :: rest => well_formed rest
  | _ :: rest => match rest with [] => true | _ => false end
  end.

(** Only [Next] notifications: no terminal event yet. *)
Definition all_next {T} (l : list (Notification T)) : bool := forallb is_next l.

(** The payloads of the [Next] notifications of a sequence, in order. *)
Definition payloads {T} (l : list (Notification T)) : list T :=
  omap (fun n => match n with Next v => Some v | _ => None end) l.

(** ** flat_map *)

Section FlatMap.
Context {A B : Type}.

(** Modelled from the spec: the state of one subscription to
    [flat_map] (section 3, FlatMap state). [source_sub] is the
    subscription to the source ([None] once closed),
    [source_completed] the flag for a completed source, [open_inners]
    the open inner subscriptions keyed by the ordinal of the worker
    invocation that spawned them, each with what it has still to emit;
    their count is the size of the map. [terminated] holds once the
    merged stream delivered its terminal event or was cancelled. *)
Record FlatMapState : Type := MkFlatMapState {
  source_sub : option (list (Notification A));
  source_completed : bool;
  open_inners : gmap nat (list (Notification B));
  spawned : nat;
  terminated : bool
}.

(** What happens in a run: the worker is invoked for the source item of
    the given ordinal and blocks for [secs] seconds, the inner stream it
    returned is subscribed to, the worker raised, the source or an inner
    stream completed, a notification is handed downstream. *)
Inductive event : Type :=
  | EvInvoked (ordinal : nat) (secs : nat)
  | EvSubscribed (ordinal : nat)
  | EvWorkerRaised (ordinal : nat) (e : exn)
  | EvSourceCompleted
  | EvInnerCompleted (ordinal : nat)
  | EvDeliver (n : Notification B).

(** Which of the independent execution contexts moves next: the source
    pushes its next notification, an open inner subscription does, or
    the owner calls the cancellation handle. *)
Inductive choice : Type :=
  | FromSource
  | FromInner (ordinal : nat)
  | Cancel.

(** Closing the merged stream: the source subscription and every open
    inner subscription are cancelled. *)
Definition shut_down (st : FlatMapState) : FlatMapState :=
  MkFlatMapState None (source_completed st) ∅ (spawned st) true.

(** Modelled from the spec: the source moves (section 4.2, rules 1, 3 and
    4). On [Next a] the worker is invoked and the inner observable it
    returns is subscribed to under the next ordinal; a worker that
    raises counts as an inner stream that emits [Error] at once. [Error]
    is forwarded and closes everything. On [Completed] the flag is set,
    and [Completed] is forwarded if no inner stream is open. *)
Definition from_source (worker : Worker A B) (st : FlatMapState)
    : FlatMapState * list event :=
  match source_sub st with
  | None | Some [] => (st, [])
  | Some (Next a :: rest) =>
      let inv := worker a in
      let ord := spawned st in
      match result inv with
      | Returned inner =>
          (MkFlatMapState (Some rest) (source_completed st)
             (<[ord := inner]> (open_inners st)) (S ord) false,
           [EvInvoked ord (slept inv); EvSubscribed ord])
      | Raised e =>
          (shut_down st,
           [EvInvoked ord (slept inv); EvWorkerRaised ord e; EvDeliver (Error e)])
      end
  | Some (Error e :: _) => (shut_down st, [EvDeliver (Error e)])
  | Some (Completed :: _) =>
      if Nat.eqb (size (open_inners st)) 0 then
        (MkFlatMapState None true ∅ (spawned st) true,
         [EvSourceCompleted; EvDeliver Completed])
      else
        (MkFlatMapState None true (open_inners st) (spawned st) false,
         [EvSourceCompleted])
  end.

(** Modelled from the spec: the open inner stream [i] moves (section
    4.2, rules 2, 3 and 4). [Next] is forwarded; [Error] is forwarded and
    closes everything; on [Completed] the stream leaves the open set, and
    [Completed] is forwarded if the source has completed and no inner
    stream is left open. *)
Definition from_inner (i : nat) (st : FlatMapState) : FlatMapState * list event :=
  match open_inners st !! i with
  | None | Some [] => (st, [])
  | Some (Next b :: rest) =>
      (MkFlatMapState (source_sub st) (source_completed st)
         (<[i := rest]> (open_inners st)) (spawned st) false,
       [EvDeliver (Next b)])
  | Some (Error e :: _) => (shut_down st, [EvDeliver (Error e)])
  | Some (Completed :: _) =>
      let remaining := delete i (open_inners st) in
      if source_completed st && Nat.eqb (size remaining) 0 then
        (MkFlatMapState None true ∅ (spawned st) true,
         [EvInnerCompleted i; EvDeliver Completed])
      else
        (MkFlatMapState (source_sub st) (source_completed st)
           remaining (spawned st) false,
         [EvInnerCompleted i])
  end.

(** Modelled from the spec: the subscription algorithm of [flat_map]
    (the [rx] library, not under src/; section 4.2, rules 1 to 5), one
    move at a time. Nothing moves once the merged stream is terminated;
    cancelling (rule 5) closes everything and delivers nothing. *)
Definition step (worker : Worker A B) (c : choice) (st : FlatMapState)
    : FlatMapState * list event :=
  if terminated st then (st, [])
  else
    match c with
    | FromSource => from_source worker st
    | FromInner i => from_inner i st
    | Cancel => (shut_down st, [])
    end.

(** A configuration is the state with the events so far; a move appends
    its events. *)
Definition advance (worker : Worker A B) (cfg : FlatMapState * list event) (c : choice)
    : FlatMapState * list event :=
  ((step worker c cfg.1).1, cfg.2 ++ (step worker c cfg.1).2).

(** The run of a schedule, move by move. A choice that cannot move (a
    closed source, an ordinal that is not open) leaves the configuration
    as it is. *)
Definition run_from (worker : Worker A B) (sched : list choice)
    (cfg : FlatMapState * list event) : FlatMapState * list event :=
  fold_left (advance worker) sched cfg.

(** The notifications handed downstream, in order. *)
Definition delivered (tr : list event) : list (Notification B) :=
  omap (fun ev => match ev with EvDeliver n => Some n | _ => None end) tr.

(** Modelled from the spec: [op.flat_map(worker)] applied to a source
    observable: the description of the merged stream. *)
Record FlatMapped : Type := MkFlatMapped {
  fm_source : Observable A;
  fm_worker : Worker A B
}.

Definition flat_map (worker : Worker A B) (source : Observable A) : FlatMapped :=
  MkFlatMapped source worker.

(** Subscribing to the merged stream creates its state afresh and
    subscribes to the source. *)
Definition subscribe_merged (o : FlatMapped) : FlatMapState :=
  MkFlatMapState (Some (fm_source o)) false ∅ 0 false.

Definition run (o : FlatMapped) (sched : list choice) : FlatMapState * list event :=
  run_from (fm_worker o) sched (subscribe_merged o, []).

End FlatMap.

Arguments FlatMapState : clear implicits.
Arguments event : clear implicits.
Arguments FlatMapped : clear implicits.

(** The error the next move of context [c] brings, if any: the source or
    an open inner stream is about to emit [Error], or the worker raises
    on the item the source is about to emit. *)
Definition erroring {A B} (w : Worker A B) (st : FlatMapState A B) (c : choice)
    : option exn :=
  match c with
  | FromSource =>
      match source_sub st with
      | Some (Error e :: _) => Some e
      | Some (Next a :: _) =>
          match result (w a) with
          | Raised e => Some e
          | Returned _ => None
          end
      | _ => None
      end
  | FromInner i =>
      match open_inners st !! i with
      | Some (Error e :: _) => Some e
      | _ => None
      end
  | Cancel => None
  end.

(** A schedule in which the owner never calls the cancellation handle. *)
Definition uncancelled (sched : list choice) : bool :=
  forallb (fun c => match c with Cancel => false | _ => true end) sched.

(** The same as a proposition. *)
Definition no_cancel (sched : list choice) : Prop := Forall (fun c => c <> Cancel) sched.

(** ** What the open inner streams have still to emit *)

(** What each open inner subscription has still to emit. *)
Definition inner_scripts {B} (m : gmap nat (list (Notification B)))
    : list (list (Notification B)) :=
  (map_to_list m).*2.

(** Everything the open inner subscriptions have still to emit, in no
    particular order across subscriptions. *)
Definition backlog {B} (m : gmap nat (list (Notification B))) : list (Notification B) :=
  mjoin (inner_scripts m).

(** The open inner subscriptions after the worker outputs [bs] were
    subscribed to under the ordinals from [k] on, none having moved. *)
Fixpoint inners_of {B} (k : nat) (bs : list B) : gmap nat (list (Notification B)) :=
  match bs with
  | [] => ∅
  | b :: rest => <[k := rx_of [b]]> (inners_of (S k) rest)
  end.

(** A bound on the moves a run still has ahead: every notification the
    source has still to emit counts for itself and for the two its
    inner stream will emit. *)
Definition work {A B} (st : FlatMapState A B) : nat :=
  match source_sub st with
  | Some script => 3 * length script
  | None => 0
  end + length (backlog (open_inners st)).

(** ** Invariants of a run *)

(** The delivered sequence is well formed, and holds no terminal event
    while the merged stream is open. *)
Definition stream_ok {A B} (cfg : FlatMapState A B * list (event B)) : Prop :=
  well_formed (delivered cfg.2) = true /\
  (terminated cfg.1 = false -> all_next (delivered cfg.2) = true).

(** [Completed] is the last event of the run, and before it the source
    has completed and every inner subscription opened has completed. *)
Definition completed_last {B} (tr : list (event B)) : Prop :=
  exists pre, tr = pre ++ [EvDeliver Completed] /\
    In EvSourceCompleted pre /\
    (forall ord, In (EvSubscribed ord) pre -> In (EvInnerCompleted ord) pre).

(** What a run keeps about completion: while the merged stream is open,
    no [Completed] was delivered, the flag is set only after the source
    completed, and every inner subscription opened has completed or is
    still open. *)
Definition guard_inv {A B} (cfg : FlatMapState A B * list (event B)) : Prop :=
  if terminated cfg.1 then In (EvDeliver Completed) cfg.2 -> completed_last cfg.2
  else
    ~ In (EvDeliver Completed) cfg.2 /\
    (source_completed cfg.1 = true -> In EvSourceCompleted cfg.2) /\
    (forall ord, In (EvSubscribed ord) cfg.2 ->
       In (EvInnerCompleted ord) cfg.2 \/ is_Some (open_inners cfg.1 !! ord)).

(** What holds of every configuration of an uncancelled run; [rest] is
    the items the source has still to emit. *)
Record good {A B} (f : A -> B) (items : list A)
    (cfg : FlatMapState A B * list (event B)) (rest : list A) : Prop := {
  good_phase :
    (source_sub cfg.1 = Some (rx_of rest) /\ source_completed cfg.1 = false /\
     terminated cfg.1 = false) \/
    (source_sub cfg.1 = None /\ source_completed cfg.1 = true /\ rest = [] /\
     (terminated cfg.1 = false -> open_inners cfg.1 <> ∅) /\
     (terminated cfg.1 = true -> open_inners cfg.1 = ∅));
  good_rest : forall a, In a rest -> In a items;
  good_inners : forall i script,
    open_inners cfg.1 !! i = Some script ->
    i < spawned cfg.1 /\ (script = [Completed] \/ exists b, script = [Next b; Completed]);
  good_perm :
    payloads (delivered cfg.2) ++ payloads (backlog (open_inners cfg.1)) ++ map f rest
    ≡ₚ map f items;
  good_delivered :
    delivered cfg.2 =
    map Next (payloads (delivered cfg.2)) ++
    (if terminated cfg.1 then [Completed] else [])
}.

(** ** The program *)

(** [source.pipe(operator)]: the operator applied to the source. *)
Definition pipe {X Y} (source : X) (operator : X -> Y) : Y := operator source.

(** [process_commands], lines 28-31 of the source:
    [commands.pipe(op.flat_map(process_command_timeout))]. *)
Definition process_commands (commands : Observable string) : FlatMapped string string :=
  pipe commands (flat_map process_command_timeout).

(** Standard output, as the lines printed so far. *)
Definition stdout : Type := list string.

(** [print(line)]. *)
Definition print (line : string) (out : stdout) : stdout := out ++ [line].

(** Modelled from the spec: [subscribe] of the [rx] library called with a
    plain function. Section 3 gives a consumer the capabilities on_next,
    on_error and on_completed; a plain function is the on_next capability
    alone: it is handed the value of every [Next], and nothing is done
    for the terminal events. *)
Definition feed {T} (on_next : T -> stdout -> stdout) (out : stdout) (n : Notification T)
    : stdout :=
  match n with
  | Next v => on_next v out
  | Error _ | Completed => out
  end.

Definition subscribe_fn {T} (on_next : T -> stdout -> stdout)
    (notifs : list (Notification T)) : stdout :=
  fold_left (feed on_next) notifs [].

(** Line 34 of the source,
    [process_commands(rx.of(...)).subscribe(print)], for any command list
    and any scheduling of the execution contexts: what ends up on
    standard output. *)
Definition main_output (commands : list string) (sched : list choice) : stdout :=
  subscribe_fn print (delivered (run (process_commands (rx_of commands)) sched).2).

(** What the sink would receive were every notification of the merged
    stream reduced by [process_errors] on its way: the reading of
    section 6, consumer injection. *)
Definition reduced_output (commands : list string) (sched : list choice) : stdout :=
  map process_errors (delivered (run (process_commands (rx_of commands)) sched).2).

(** Each inner subscription in turn, from ordinal [k] on, run to its end. *)
Definition drain (k n : nat) : list choice :=
  i ← seq k n; [FromInner i; FromInner i].

(** The order in which a single-threaded trampoline runs the work: the
    source to its end, then the inner subscriptions first come first
    served, each to its end. *)
Definition trampoline (n : nat) : list choice :=
  repeat FromSource (S n) ++ drain 0 n.

(** Every command of the list is echo-prefixed. *)
Definition all_echo (commands : list string) : bool :=
  forallb (fun cmd => startswith cmd "echo") commands.

(** A worker whose second item fails while the first one's stream is
    still open. *)
Definition flaky_worker : Worker nat nat := fun n =>
  if Nat.eqb n 2 then ret [Error (Exception "boom")]
  else ret [Next (10 * n); Next (10 * n + 1); Completed].

(** ** Blocking time *)

(** The items the source subscription has still to emit. *)
Definition remaining {A B} (st : FlatMapState A B) : list A :=
  match source_sub st with
  | Some script => payloads script
  | None => []
  end.

(** The time, in seconds, for which the worker invocations of a run
    blocked it. *)
Definition blocked {B} (tr : list (event B)) : nat :=
  sum_list (omap (fun ev => match ev with EvInvoked _ secs => Some secs | _ => None end) tr).

(** The time for which the worker blocks on the items, all together. *)
Definition total_slept {A B} (w : Worker A B) (items : list A) : nat :=
  sum_list (map (fun a => slept (w a)) items).

(** The number of sleep-prefixed commands. *)
Definition sleepers (commands : list string) : nat :=
  length (List.filter (fun cmd => startswith cmd "sleep") commands).

(** * Evaluation *)

Example process_command_echo :
  process_command "echo before" = MkInvocation 0 (Returned [Next "echo before"; Completed]).
Proof. reflexivity. Qed.

Example process_command_sleep :
  process_command "sleep 3" = MkInvocation 10 (Returned [Next "awake"; Completed]).
Proof. reflexivity. Qed.

Example process_command_bogus :
  process_command "bogus" =
    MkInvocation 0 (Returned [Next "Invalid command bogus provided."; Completed]).
Proof. reflexivity. Qed.

Example main_program :
  main_output ["echo before"; "sleep"; "echo after"] (trampoline 3)
  = ["echo before"; "awake"; "echo after"].
Proof. vm_compute. reflexivity. Qed.

Example rx_of_two_subscriptions :
  let o := rx_of ["a"; "b"] in
  pair_run [true; true; false; true; false; false; true] (subscribe o, subscribe o)
  = (MkSubscription None [Next "a"; Next "b"; Completed],
     MkSubscription None [Next "a"; Next "b"; Completed]).
Proof. reflexivity. Qed.

Example ill_formed_source_is_cut :
  received (sub_run [Emit; Emit; Emit; Emit]
              (subscribe [Next 1; Error (Exception "boom"); Next 2; Completed]))
  = [Next 1; Error (Exception "boom")].
Proof. reflexivity. Qed.

(** * Properties *)

(** ** The terminal-mapping stage *)

(** C3: for every notification, [accept] calls exactly the handler of the
    notification's variant, exactly once and with the variant's payload,
    and returns that handler's result; through [process_errors] a [Next]
    value passes unchanged, every [Error] becomes the one advisory
    message whatever its cause, and [Completed] becomes the shutdown
    message. *)
Theorem process_errors_dispatch (notif : Notification string) :
  (forall (R : Type) (hn : string -> R) (he : exn -> R) (hc : unit -> R),
     accept notif (logged_next hn) (logged_error he) (logged_completed hc) =
     match notif with
     | Next value => ([CalledNext value], hn value)
     | Error cause => ([CalledError cause], he cause)
     | Completed => ([CalledCompleted], hc tt)
     end) /\
  process_errors notif =
    match notif with
    | Next value => value
    | Error _ => "Your command could not be processed. Please try again."
    | Completed => "No more commands to process. Shutting down!"
    end.
Proof.
  split.
  - intros R hn he hc. destruct notif as [value|cause|]; reflexivity.
  - destruct notif as [value|cause|]; reflexivity.
Qed.

(** ** The command worker *)

Lemma startswith_spec (p cmd : string) :
  startswith cmd p = true <-> exists rest, cmd = p +:+ rest.
Proof.
  unfold startswith. revert cmd.
  induction p as [|a p IH]; intros cmd.
  - split; [intros _; exists cmd; reflexivity | intros _; destruct cmd; reflexivity].
  - destruct cmd as [|b cmd]; simpl.
    + split; [discriminate | intros [rest H]; discriminate].
    + destruct (Ascii.ascii_dec a b) as [->|Hne].
      * rewrite IH. split; intros [rest H]; exists rest.
        -- rewrite H. reflexivity.
        -- injection H as H. exact H.
      * split; [discriminate | intros [rest H]; injection H as H1 H2; congruence].
Qed.

Lemma startswith_app (p rest : string) : startswith (p +:+ rest) p = true.
Proof. apply startswith_spec. exists rest. reflexivity. Qed.

Lemma process_command_returns (cmd : string) :
  process_command cmd =
    MkInvocation (if startswith cmd "echo" then 0
                  else if startswith cmd "sleep" then 10 else 0)
                 (Returned (rx_of [command_result cmd])).
Proof.
  unfold process_command, command_result.
  destruct (startswith cmd "echo"); [reflexivity|].
  destruct (startswith cmd "sleep"); reflexivity.
Qed.

(** C7: for every command string the worker returns an observable that
    emits exactly one [Next] carrying a result string and then
    [Completed]; for "bogus" the [Next] carries
    "Invalid command bogus provided.". *)
Theorem process_command_single_next :
  (forall cmd : string, exists (secs : nat) (r : string),
     process_command cmd = MkInvocation secs (Returned [Next r; Completed]) /\
     emissions [Next r; Completed] = [Next r; Completed]) /\
  (exists secs : nat,
     process_command "bogus" =
       MkInvocation secs (Returned [Next "Invalid command bogus provided."; Completed])).
Proof.
  split.
  - intros cmd. eexists _, (command_result cmd). split.
    + apply process_command_returns.
    + reflexivity.
  - exists 0. reflexivity.
Qed.

(** C8: the timeout variant is an identity pass-through: for every command
    it blocks as long, returns the same observable and so gives every
    subscription the same notification sequence as [process_command]. *)
Theorem process_command_timeout_passthrough (cmd : string) :
  process_command_timeout cmd = process_command cmd /\
  (forall acts : list action,
     worker_stream process_command_timeout cmd acts =
     worker_stream process_command cmd acts) /\
  (forall (source : Observable string) (sched : list choice),
     run (flat_map process_command_timeout source) sched =
     run (flat_map process_command source) sched).
Proof. repeat split. Qed.

(** C10: classification is by prefix, echo first, then sleep, then the
    fallback: a string that starts with "echo" comes back verbatim, one
    that starts with "sleep" gives "awake" after the ten seconds whatever
    follows the prefix, every other string gives
    "Invalid command {cmd} provided." with the whole command inside. *)
Theorem process_command_classification :
  (forall rest : string,
     process_command ("echo" +:+ rest) =
       MkInvocation 0 (Returned [Next ("echo" +:+ rest); Completed])) /\
  (forall rest : string,
     process_command ("sleep" +:+ rest) =
       MkInvocation 10 (Returned [Next "awake"; Completed])) /\
  (forall cmd : string,
     ~ (exists rest, cmd = "echo" +:+ rest) ->
     ~ (exists rest, cmd = "sleep" +:+ rest) ->
     process_command cmd =
       MkInvocation 0
         (Returned [Next ("Invalid command " +:+ cmd +:+ " provided."); Completed])).
Proof.
  split; [|split].
  - intros rest. rewrite process_command_returns.
    unfold command_result. rewrite startswith_app. reflexivity.
  - intros rest. rewrite process_command_returns.
    unfold command_result. rewrite (startswith_app "sleep" rest).
    reflexivity.
  - intros cmd Hecho Hsleep. rewrite process_command_returns.
    unfold command_result.
    destruct (startswith cmd "echo") eqn:E1.
    { apply startswith_spec in E1. contradiction. }
    destruct (startswith cmd "sleep") eqn:E2.
    { apply startswith_spec in E2. contradiction. }
    reflexivity.
Qed.

Lemma process_command_classification_witness :
  process_command "echoXYZ" = MkInvocation 0 (Returned [Next "echoXYZ"; Completed]) /\
  process_command "sleepy" = MkInvocation 10 (Returned [Next "awake"; Completed]) /\
  process_command "bogus" =
    MkInvocation 0 (Returned [Next "Invalid command bogus provided."; Completed]).
Proof.
  destruct process_command_classification as (Hecho & Hsleep & Hother).
  split; [exact (Hecho "XYZ") | split; [exact (Hsleep "y") |]].
  apply (Hother "bogus").
  - intros [rest H]. discriminate H.
  - intros [rest H]. discriminate H.
Defined.

Lemma all_echo_results (commands : list string) :
  all_echo commands = true -> map command_result commands = commands.
Proof.
  unfold all_echo. induction commands as [|cmd commands IH]; [reflexivity|].
  simpl. intros H. apply andb_true_iff in H as [Hcmd Hrest].
  rewrite IH by exact Hrest. unfold command_result. rewrite Hcmd. reflexivity.
Qed.

(** ** Notification sequences *)

Lemma all_next_app {T} (l1 l2 : list (Notification T)) :
  all_next (l1 ++ l2) = all_next l1 && all_next l2.
Proof. apply forallb_app. Qed.

Lemma all_next_well_formed {T} (l : list (Notification T)) :
  all_next l = true -> well_formed l = true.
Proof.
  induction l as [|n l IH]; [reflexivity|].
  destruct n; simpl; [exact IH | discriminate | discriminate].
Qed.

Lemma well_formed_snoc {T} (l : list (Notification T)) (n : Notification T) :
  all_next l = true -> well_formed (l ++ [n]) = true.
Proof.
  induction l as [|m l IH]; simpl.
  - intros _. destruct n; reflexivity.
  - destruct m; simpl; [exact IH | discriminate | discriminate].
Qed.

Lemma payloads_map {T} (vs : list T) : payloads (map Next vs) = vs.
Proof. induction vs as [|v vs IH]; [reflexivity | simpl; f_equal; exact IH]. Qed.

Lemma payloads_app {T} (l1 l2 : list (Notification T)) :
  payloads (l1 ++ l2) = payloads l1 ++ payloads l2.
Proof. apply omap_app. Qed.

Global Instance payloads_Permutation {T} : Proper ((≡ₚ) ==> (≡ₚ)) (@payloads T).
Proof. intros l1 l2 H. unfold payloads. rewrite H. reflexivity. Qed.

(** ** Subscriptions to [rx.of] *)

Lemma sub_run_snoc {T} (acts : list action) (a : action) (s : Subscription T) :
  sub_run (acts ++ [a]) s = sub_step (sub_run acts s) a.
Proof. unfold sub_run. rewrite fold_left_app. reflexivity. Qed.

Lemma sub_run_closed {T} (acts : list action) (rcv : list (Notification T)) :
  sub_run acts (MkSubscription None rcv) = MkSubscription None rcv.
Proof. induction acts as [|a acts IH]; [reflexivity | exact IH]. Qed.

(** After [k] emissions, a subscription whose script starts with the
    items [items] has handed over the first [k] of them. *)
Lemma sub_run_items {T} (items : list T) (tail rcv : list (Notification T)) (k : nat) :
  k <= length items ->
  sub_run (repeat Emit k) (MkSubscription (Some (map Next items ++ tail)) rcv) =
  MkSubscription (Some (map Next (drop k items) ++ tail)) (rcv ++ map Next (take k items)).
Proof.
  revert items rcv. induction k as [|k IH]; intros items rcv Hk.
  - simpl. rewrite drop_0, app_nil_r. reflexivity.
  - destruct items as [|x items]; [simpl in Hk; lia|].
    simpl in Hk. cbn [repeat]. change (sub_run (Emit :: repeat Emit k) ?s)
      with (sub_run (repeat Emit k) (sub_step s Emit)).
    cbn [sub_step pending received map app]. rewrite IH by lia.
    cbn [drop take map]. rewrite <- app_assoc. reflexivity.
Qed.

Lemma sub_run_of {T} (items : list T) (k : nat) :
  sub_run (repeat Emit k) (subscribe (rx_of items)) =
  if decide (k <= length items)
  then MkSubscription (Some (rx_of (drop k items))) (map Next (take k items))
  else MkSubscription None (rx_of items).
Proof.
  unfold subscribe, rx_of. destruct (decide (k <= length items)) as [Hk|Hk].
  - rewrite sub_run_items by exact Hk. reflexivity.
  - replace k with (length items + S (k - S (length items))) by lia.
    rewrite repeat_app. unfold sub_run at 1. rewrite fold_left_app.
    fold (sub_run (repeat Emit (length items))
            (MkSubscription (Some (map Next items ++ [Completed])) [])).
    rewrite sub_run_items by lia.
    rewrite drop_all, firstn_all. cbn [repeat fold_left map app].
    cbn [sub_step pending received].
    apply (sub_run_closed (repeat Emit _)).
Qed.

Lemma pair_run_independent {T} (sched : list bool) (s1 s2 : Subscription T) :
  pair_run sched (s1, s2) =
  (sub_run (repeat Emit (turns true sched)) s1,
   sub_run (repeat Emit (turns false sched)) s2).
Proof.
  revert s1 s2. induction sched as [|b sched IH]; intros s1 s2; [reflexivity|].
  cbn [pair_run fold_left]. fold (pair_run sched (pair_step (s1, s2) b)).
  destruct b; cbn [pair_step fst snd turns Bool.eqb]; rewrite IH; reflexivity.
Qed.

(** C6: for every finite list of items, a subscription to
    [rx.of(items...)] left to run receives [Next item] for each item in
    the given order and then exactly one [Completed] - after [k]
    emissions the first [k] items, and nothing after the [Completed] -;
    two subscriptions to it are independent executions: however their
    emissions interleave, each is where it would be running alone. *)
Theorem rx_of_subscription {T : Type} (items : list T) :
  emissions (rx_of items) = map Next items ++ [Completed] /\
  (forall k : nat,
     received (sub_run (repeat Emit k) (subscribe (rx_of items))) =
     if decide (k <= length items) then map Next (take k items)
     else map Next items ++ [Completed]) /\
  (forall sched : list bool,
     pair_run sched (subscribe (rx_of items), subscribe (rx_of items)) =
     (sub_run (repeat Emit (turns true sched)) (subscribe (rx_of items)),
      sub_run (repeat Emit (turns false sched)) (subscribe (rx_of items)))).
Proof.
  split; [|split].
  - unfold emissions. rewrite sub_run_of.
    destruct (decide _) as [Hk|Hk]; [|reflexivity].
    unfold rx_of in Hk. rewrite length_app, length_map in Hk. simpl in Hk. lia.
  - intros k. rewrite sub_run_of. destruct (decide _); reflexivity.
  - intros sched. apply pair_run_independent.
Qed.

Lemma sub_step_ok {T} (s : Subscription T) (a : action) :
  (well_formed (received s) = true /\
   (pending s <> None -> all_next (received s) = true)) ->
  well_formed (received (sub_step s a)) = true /\
  (pending (sub_step s a) <> None -> all_next (received (sub_step s a)) = true).
Proof.
  intros [Hwf Hnext]. unfold sub_step.
  destruct (pending s) as [script|] eqn:Hp; [|rewrite Hp; split; [exact Hwf | congruence]].
  assert (all_next (received s) = true) as Hall by (apply Hnext; congruence).
  destruct a; simpl; [|split; [exact Hwf | congruence]].
  destruct script as [|[v|e|] rest]; simpl.
  - rewrite Hp. split; [exact Hwf | intros _; exact Hall].
  - assert (all_next (received s ++ [Next v]) = true) as Hall'.
    { rewrite all_next_app, Hall. reflexivity. }
    split; [apply all_next_well_formed, Hall' | intros _; exact Hall'].
  - split; [apply well_formed_snoc, Hall | congruence].
  - split; [apply well_formed_snoc, Hall | congruence].
Qed.

(** ** Runs of a merged stream *)

Section FlatMapFacts.
Context {A B : Type} (w : Worker A B).
Implicit Types (st : FlatMapState A B) (tr : list (event B)) (c : choice).

Lemma run_from_snoc sched c cfg :
  run_from w (sched ++ [c]) cfg = advance w (run_from w sched cfg) c.
Proof. unfold run_from. rewrite fold_left_app. reflexivity. Qed.

Lemma run_from_app sched1 sched2 cfg :
  run_from w (sched1 ++ sched2) cfg = run_from w sched2 (run_from w sched1 cfg).
Proof. unfold run_from. apply fold_left_app. Qed.

(** Induction along a run: what holds at the start and survives every
    move of a schedule holds at its end. *)
Lemma run_from_invariant (P : FlatMapState A B * list (event B) -> Prop)
    (allowed : choice -> Prop) sched cfg :
  P cfg ->
  (forall cfg' c, allowed c -> P cfg' -> P (advance w cfg' c)) ->
  Forall allowed sched ->
  P (run_from w sched cfg).
Proof.
  intros Hinit Hstep. revert cfg Hinit.
  induction sched as [|c sched IH]; intros cfg Hinit Hall; [exact Hinit|].
  inversion Hall; subst. apply IH; [apply Hstep|]; assumption.
Qed.

Lemma delivered_app tr1 tr2 :
  delivered (tr1 ++ tr2) = delivered tr1 ++ delivered tr2.
Proof. apply omap_app. Qed.

Lemma delivered_In tr (n : Notification B) :
  In n (delivered tr) <-> In (EvDeliver n) tr.
Proof.
  induction tr as [|ev tr IH]; [reflexivity|].
  destruct ev; simpl; rewrite <- ?IH;
    try (split; [tauto | intros [H|H]; [discriminate | exact H]]).
  split; (intros [H|H]; [left; congruence | right; exact H]).
Qed.

Lemma step_terminated c st : terminated st = true -> step w c st = (st, []).
Proof. intros H. unfold step. rewrite H. reflexivity. Qed.

Lemma advance_terminated c cfg : terminated cfg.1 = true -> advance w cfg c = cfg.
Proof.
  intros H. unfold advance. rewrite step_terminated by exact H.
  destruct cfg as [st tr]. simpl. rewrite app_nil_r. reflexivity.
Qed.

(** Once terminated, a merged stream stays as it is whatever is
    scheduled. *)
Lemma run_from_terminated sched cfg :
  terminated cfg.1 = true -> run_from w sched cfg = cfg.
Proof.
  intros H. induction sched as [|c sched IH]; [reflexivity|].
  cbn [run_from fold_left]. rewrite advance_terminated by exact H. exact IH.
Qed.

(** One move hands downstream nothing, or one [Next] and the stream
    stays open, or one terminal event and the stream is terminated. *)
Lemma step_delivers c st :
  terminated st = false ->
  delivered (step w c st).2 = [] \/
  (exists b, delivered (step w c st).2 = [Next b] /\ terminated (step w c st).1 = false) \/
  (exists t, is_terminal t = true /\ delivered (step w c st).2 = [t] /\
             terminated (step w c st).1 = true).
Proof.
  intros Hopen. unfold step. rewrite Hopen.
  destruct c as [|i|]; unfold from_source, from_inner, shut_down;
    repeat case_match; simpl; eauto 6;
    right; right; eexists; (split; [|split; reflexivity]); reflexivity.
Qed.

Lemma stream_ok_advance cfg c : stream_ok cfg -> stream_ok (advance w cfg c).
Proof.
  intros [Hwf Hnext]. destruct (terminated cfg.1) eqn:Hterm.
  { rewrite advance_terminated by exact Hterm. split; [exact Hwf|].
    intros H. congruence. }
  specialize (Hnext eq_refl). unfold stream_ok, advance. cbn [fst snd].
  rewrite delivered_app.
  destruct (step_delivers c cfg.1 Hterm) as [H|[(b & H & Ht)|(t & Hterminal & H & Ht)]];
    rewrite H.
  - rewrite app_nil_r. split; [exact Hwf | intros _; exact Hnext].
  - assert (all_next (delivered cfg.2 ++ [Next b]) = true) as Hall.
    { rewrite all_next_app, Hnext. reflexivity. }
    split; [apply all_next_well_formed, Hall | intros _; exact Hall].
  - split; [apply well_formed_snoc, Hnext | intros Hfalse; congruence].
Qed.

Lemma stream_ok_run sched cfg : stream_ok cfg -> stream_ok (run_from w sched cfg).
Proof.
  intros H. apply (run_from_invariant stream_ok (fun _ => True)); [exact H| |].
  - intros cfg' c _. apply stream_ok_advance.
  - apply Forall_forall. intros; exact I.
Qed.

End FlatMapFacts.

Lemma uncancelled_no_cancel (sched : list choice) :
  uncancelled sched = true -> no_cancel sched.
Proof.
  unfold uncancelled, no_cancel. rewrite forallb_forall, Forall_forall.
  intros H c Hc ->. apply list_elem_of_In, H in Hc. discriminate.
Qed.

Lemma no_cancel_uncancelled (sched : list choice) :
  no_cancel sched -> uncancelled sched = true.
Proof.
  unfold uncancelled, no_cancel. rewrite forallb_forall, Forall_forall.
  intros H c Hc. apply list_elem_of_In, H in Hc. destruct c; congruence.
Qed.


(** ** Terminal uniqueness *)

(** C5: for every subscription of the program - to a cold observable
    (the source, an inner stream) under any sequence of emissions and
    cancellations, and to the merged stream under any worker and any
    scheduling - what the consumer receives is zero or more [Next], then
    at most one terminal event, and nothing after it. *)
Theorem terminal_uniqueness :
  (forall (T : Type) (o : Observable T) (acts : list action),
     well_formed (received (sub_run acts (subscribe o))) = true) /\
  (forall (A B : Type) (o : FlatMapped A B) (sched : list choice),
     well_formed (delivered (run o sched).2) = true).
Proof.
  split.
  - intros T o acts.
    enough (well_formed (received (sub_run acts (subscribe o))) = true /\
            (pending (sub_run acts (subscribe o)) <> None ->
             all_next (received (sub_run acts (subscribe o))) = true)) as [H _]
      by exact H.
    induction acts as [|a acts IH] using rev_ind.
    + split; reflexivity.
    + rewrite sub_run_snoc. apply sub_step_ok, IH.
  - intros A B o sched. apply (stream_ok_run (fm_worker o) sched).
    split; reflexivity.
Qed.

(** ** Fail-fast *)

Lemma erroring_step {A B} (w : Worker A B) (st : FlatMapState A B) (c : choice) (e : exn) :
  terminated st = false ->
  erroring w st c = Some e ->
  (step w c st).1 = shut_down st /\ delivered (step w c st).2 = [Error e].
Proof.
  intros Hopen Herr. unfold step. rewrite Hopen.
  destruct c as [|i|]; simpl in Herr; [| |discriminate].
  - unfold from_source. destruct (source_sub st) as [[|[a|e'|] rest]|]; try discriminate.
    + destruct (result (w a)) as [inner|e'']; [discriminate|].
      injection Herr as ->. split; reflexivity.
    + injection Herr as ->. split; reflexivity.
  - unfold from_inner. destruct (open_inners st !! i) as [[|[b|e'|] rest]|]; try discriminate.
    injection Herr as ->. split; reflexivity.
Qed.

(** C4: when, in a merged stream that is still open, the source or any
    inner stream emits [Error] (or the worker raises), the merged stream
    delivers exactly that [Error] after nothing but [Next]s, the source
    subscription and every open inner subscription are cancelled, and
    whatever is scheduled afterwards nothing more happens: no [Next] of a
    still-open inner stream is delivered. *)
Theorem fail_fast {A B : Type} (o : FlatMapped A B) (sched : list choice)
    (c : choice) (e : exn) :
  terminated (run o sched).1 = false ->
  erroring (fm_worker o) (run o sched).1 c = Some e ->
  delivered (run o (sched ++ [c])).2 = delivered (run o sched).2 ++ [Error e] /\
  all_next (delivered (run o sched).2) = true /\
  source_sub (run o (sched ++ [c])).1 = None /\
  open_inners (run o (sched ++ [c])).1 = ∅ /\
  terminated (run o (sched ++ [c])).1 = true /\
  (forall later : list choice,
     run o (sched ++ c :: later) = run o (sched ++ [c])).
Proof.
  intros Hopen Herr.
  destruct (erroring_step _ _ _ _ Hopen Herr) as [Hst Hev].
  assert (stream_ok (run o sched)) as [_ Hnext].
  { apply (stream_ok_run (fm_worker o) sched). split; reflexivity. }
  assert (run o (sched ++ [c]) =
          (shut_down (run o sched).1,
           (run o sched).2 ++ (step (fm_worker o) c (run o sched).1).2)) as Hsnoc.
  { unfold run in *. rewrite run_from_snoc. unfold advance. rewrite Hst. reflexivity. }
  split; [rewrite Hsnoc; cbn [snd]; rewrite delivered_app, Hev; reflexivity|].
  split; [exact (Hnext Hopen)|].
  rewrite Hsnoc. cbn [fst shut_down source_sub open_inners terminated].
  repeat (split; [reflexivity|]).
  intros later. rewrite <- Hsnoc. change (c :: later) with ([c] ++ later).
  unfold run. rewrite app_assoc, (run_from_app _ (sched ++ [c]) later).
  apply run_from_terminated. fold (run o (sched ++ [c])). rewrite Hsnoc. reflexivity.
Qed.

Lemma fail_fast_witness :
  delivered (run (flat_map flaky_worker (rx_of [1; 2; 3]))
               ([FromSource; FromSource; FromInner 0] ++ [FromInner 1])).2
  = [Next 10; Error (Exception "boom")] /\
  forall later : list choice,
    run (flat_map flaky_worker (rx_of [1; 2; 3]))
      ([FromSource; FromSource; FromInner 0] ++ FromInner 1 :: later)
    = run (flat_map flaky_worker (rx_of [1; 2; 3]))
        ([FromSource; FromSource; FromInner 0] ++ [FromInner 1]).
Proof.
  destruct (fail_fast (flat_map flaky_worker (rx_of [1; 2; 3]))
              [FromSource; FromSource; FromInner 0] (FromInner 1) (Exception "boom"))
    as (Hd & _ & _ & _ & _ & Hlater).
  - reflexivity.
  - reflexivity.
  - split; [exact Hd | exact Hlater].
Defined.

(** ** The worker never raises *)

Lemma never_raises_no_event {A B} (w : Worker A B) (c : choice) (st : FlatMapState A B)
    (ord : nat) (e : exn) :
  (forall a e', result (w a) <> Raised e') ->
  ~ In (EvWorkerRaised ord e) (step w c st).2.
Proof.
  intros Hw. unfold step, from_source, from_inner.
  repeat case_match; simpl; try tauto;
    intros Hin; repeat (destruct Hin as [Hin|Hin]);
    try discriminate Hin; try contradiction.
  eapply Hw. eassumption.
Qed.

Lemma never_raises_run {A B} (w : Worker A B) (sched : list choice)
    (cfg : FlatMapState A B * list (event B)) (ord : nat) (e : exn) :
  (forall a e', result (w a) <> Raised e') ->
  ~ In (EvWorkerRaised ord e) cfg.2 ->
  ~ In (EvWorkerRaised ord e) (run_from w sched cfg).2.
Proof.
  intros Hw Hinit.
  apply (run_from_invariant w (fun cfg => ~ In (EvWorkerRaised ord e) cfg.2)
           (fun _ => True)); [exact Hinit| |].
  - intros cfg' c _ Hcfg. unfold advance. cbn [snd]. rewrite in_app_iff.
    intros [H|H]; [exact (Hcfg H)|].
    exact (never_raises_no_event w c cfg'.1 ord e Hw H).
  - apply Forall_forall. intros; exact I.
Qed.

(** C9: for every input string [process_command] returns normally: its
    three branches cover every string, the trailing one taking all that
    are neither echo- nor sleep-prefixed; so in no run of the program's
    pipeline, whatever the source and the scheduling, does a worker
    invocation raise. *)
Theorem process_command_never_raises :
  (forall cmd : string,
     result (process_command cmd) = Returned (rx_of [command_result cmd])) /\
  (forall cmd : string,
     command_result cmd =
       if startswith cmd "echo" then cmd
       else if startswith cmd "sleep" then "awake"
       else "Invalid command " +:+ cmd +:+ " provided.") /\
  (forall (source : Observable string) (sched : list choice) (ord : nat) (e : exn),
     ~ In (EvWorkerRaised ord e) (run (process_commands source) sched).2).
Proof.
  split; [|split].
  - intros cmd. rewrite process_command_returns. reflexivity.
  - reflexivity.
  - intros source sched ord e. apply never_raises_run; [|simpl; tauto].
    intros cmd e'. change (fm_worker _ cmd) with (process_command cmd).
    rewrite process_command_returns. discriminate.
Qed.

(** ** Completion of the merged stream *)

(** An event is not among the few a move appends. *)
Ltac not_among_events := rewrite ?in_app_iff; simpl; intuition discriminate.

Section Guard.
Context {A B : Type} (w : Worker A B).

Lemma guard_idle (st : FlatMapState A B) (tr : list (event B)) :
  guard_inv (st, tr) -> guard_inv (st, tr ++ []).
Proof. rewrite app_nil_r. exact id. Qed.

Lemma guard_failed (st : FlatMapState A B) (tr evs : list (event B)) :
  ~ In (EvDeliver Completed) tr ->
  ~ In (EvDeliver Completed) evs ->
  guard_inv (shut_down st, tr ++ evs).
Proof.
  intros Htr Hevs. unfold guard_inv. cbn [fst snd shut_down terminated].
  rewrite in_app_iff. tauto.
Qed.

Lemma guard_advance (cfg : FlatMapState A B * list (event B)) (c : choice) :
  guard_inv cfg -> guard_inv (advance w cfg c).
Proof.
  intros G. destruct (terminated cfg.1) eqn:Hterm.
  { rewrite advance_terminated by exact Hterm. exact G. }
  pose proof G as G0.
  unfold guard_inv in G. rewrite Hterm in G. destruct G as (Hno & Hsrc & Hsub).
  destruct cfg as [[src sc open sp term] tr]. simpl in *. subst term.
  unfold advance, step. cbn [fst snd terminated].
  destruct c as [|i|].
  - unfold from_source. cbn [source_sub open_inners spawned source_completed].
    destruct src as [[|[a|e|] rest]|]; try apply guard_idle, G0.
    + destruct (result (w a)) as [inner|e].
      * unfold guard_inv. cbn [fst snd terminated source_completed open_inners].
        split; [|split].
        -- not_among_events.
        -- intros H. rewrite in_app_iff. left. exact (Hsrc H).
        -- intros ord. rewrite !in_app_iff. simpl. rewrite lookup_insert.
           intros [H|[H|[H|[]]]]; [|discriminate|].
           ++ destruct (Hsub ord H) as [H'|H']; [tauto|]. right.
              case_decide; [eexists; reflexivity | exact H'].
           ++ injection H as ->. right. rewrite decide_True by reflexivity.
              eexists; reflexivity.
      * apply guard_failed; [exact Hno | not_among_events].
    + apply guard_failed; [exact Hno | not_among_events].
    + destruct (Nat.eqb_spec (size open) 0) as [Hsize|Hsize].
      * apply map_size_empty_iff in Hsize. subst open.
        unfold guard_inv. cbn [fst snd terminated]. intros _.
        exists (tr ++ [EvSourceCompleted]). rewrite <- app_assoc. split; [reflexivity|].
        split; [rewrite in_app_iff; simpl; tauto|].
        intros ord. rewrite !in_app_iff. simpl. intros [H|[H|[]]]; [|discriminate].
        destruct (Hsub ord H) as [H'|[x H']]; [tauto|].
        rewrite lookup_empty in H'. discriminate.
      * unfold guard_inv. cbn [fst snd terminated source_completed open_inners].
        split; [|split].
        -- not_among_events.
        -- intros _. rewrite in_app_iff. simpl. tauto.
        -- intros ord. rewrite !in_app_iff. simpl. intros [H|[H|[]]]; [|discriminate].
           destruct (Hsub ord H); tauto.
  - unfold from_inner. cbn [source_sub open_inners spawned source_completed].
    destruct (open !! i) as [[|[b|e|] rest]|] eqn:Hi; try apply guard_idle, G0.
    + unfold guard_inv. cbn [fst snd terminated source_completed open_inners].
      split; [|split].
      * not_among_events.
      * intros H. rewrite in_app_iff. left. exact (Hsrc H).
      * intros ord. rewrite !in_app_iff. simpl. rewrite lookup_insert.
        intros [H|[H|[]]]; [|discriminate].
        destruct (Hsub ord H) as [H'|H']; [tauto|]. right.
        case_decide; [eexists; reflexivity | exact H'].
    + apply guard_failed; [exact Hno | not_among_events].
    + destruct (sc && Nat.eqb (size (delete i open)) 0) eqn:Hlast.
      * apply andb_true_iff in Hlast as [-> Hsize].
        apply Nat.eqb_eq, map_size_empty_iff in Hsize.
        unfold guard_inv. cbn [fst snd terminated]. intros _.
        exists (tr ++ [EvInnerCompleted i]). rewrite <- app_assoc. split; [reflexivity|].
        split; [rewrite in_app_iff; left; exact (Hsrc eq_refl)|].
        intros ord. rewrite !in_app_iff. simpl. intros [H|[H|[]]]; [|discriminate].
        destruct (decide (ord = i)) as [->|Hne]; [tauto|].
        destruct (Hsub ord H) as [H'|[x H']]; [tauto|].
        rewrite <- (lookup_delete_ne open i ord), Hsize, lookup_empty in H' by congruence.
        discriminate.
      * unfold guard_inv. cbn [fst snd terminated source_completed open_inners].
        split; [|split].
        -- not_among_events.
        -- intros H. rewrite in_app_iff. left. exact (Hsrc H).
        -- intros ord. rewrite !in_app_iff. simpl. intros [H|[H|[]]]; [|discriminate].
           destruct (decide (ord = i)) as [->|Hne]; [tauto|].
           destruct (Hsub ord H) as [H'|H']; [tauto|]. right.
           rewrite lookup_delete_ne by congruence. exact H'.
  - rewrite <- (app_nil_r tr) at 1. rewrite app_nil_r.
    apply guard_failed; [exact Hno | simpl; tauto].
Qed.

End Guard.

(** [Completed] reaches the consumer only as the last event of a run,
    after the source has completed and every inner subscription that was
    opened has completed. *)
Lemma completion_guard {A B} (o : FlatMapped A B) (sched : list choice) :
  In (EvDeliver Completed) (run o sched).2 -> completed_last (run o sched).2.
Proof.
  assert (guard_inv (run o sched)) as G.
  { apply (run_from_invariant (fm_worker o) guard_inv (fun _ => True)).
    - unfold guard_inv. simpl. intuition discriminate.
    - intros cfg c _. apply guard_advance.
    - apply Forall_forall. intros; exact I. }
  unfold guard_inv in G. destruct (terminated (run o sched).1); tauto.
Qed.


(** ** The backlog of the open inner streams *)

Section Backlog.
Context {B : Type}.
Implicit Types (m : gmap nat (list (Notification B))) (script : list (Notification B)).

Lemma inner_scripts_empty : inner_scripts (∅ : gmap nat (list (Notification B))) = [].
Proof. unfold inner_scripts. rewrite map_to_list_empty. reflexivity. Qed.

Lemma inner_scripts_insert_fresh m i script :
  m !! i = None -> inner_scripts (<[i := script]> m) ≡ₚ script :: inner_scripts m.
Proof.
  intros H. unfold inner_scripts. rewrite (map_to_list_insert m i script H).
  reflexivity.
Qed.

Lemma inner_scripts_delete m i script :
  m !! i = Some script -> inner_scripts m ≡ₚ script :: inner_scripts (delete i m).
Proof.
  intros H. unfold inner_scripts. rewrite <- (map_to_list_delete m i script H).
  reflexivity.
Qed.

Lemma inner_scripts_update m i script script' :
  m !! i = Some script ->
  inner_scripts (<[i := script']> m) ≡ₚ script' :: inner_scripts (delete i m).
Proof.
  intros H. rewrite <- (insert_delete_eq m i script').
  apply inner_scripts_insert_fresh, lookup_delete_eq.
Qed.

Lemma backlog_empty : backlog (∅ : gmap nat (list (Notification B))) = [].
Proof. unfold backlog. rewrite inner_scripts_empty. reflexivity. Qed.

Lemma backlog_insert_fresh m i script :
  m !! i = None -> backlog (<[i := script]> m) ≡ₚ script ++ backlog m.
Proof.
  intros H. unfold backlog. rewrite (inner_scripts_insert_fresh m i script H).
  reflexivity.
Qed.

Lemma backlog_delete m i script :
  m !! i = Some script -> backlog m ≡ₚ script ++ backlog (delete i m).
Proof.
  intros H. unfold backlog. rewrite (inner_scripts_delete m i script H).
  reflexivity.
Qed.

Lemma backlog_update m i script script' :
  m !! i = Some script ->
  backlog (<[i := script']> m) ≡ₚ script' ++ backlog (delete i m).
Proof.
  intros H. unfold backlog. rewrite (inner_scripts_update m i script script' H).
  reflexivity.
Qed.

End Backlog.

(** ** The merged stream of [rx.of] under a single-result worker *)

Section MergedOf.
Context {A B : Type} (w : Worker A B) (f : A -> B) (items : list A).
Implicit Types (st : FlatMapState A B) (tr : list (event B)) (c : choice).
Hypothesis Hw : forall a, In a items ->
  exists secs, w a = MkInvocation secs (Returned (rx_of [f a])).

Lemma good_init : good f items (subscribe_merged (flat_map w (rx_of items)), []) items.
Proof.
  split; simpl.
  - left. auto.
  - auto.
  - intros i script H. rewrite lookup_empty in H. discriminate.
  - rewrite backlog_empty. reflexivity.
  - reflexivity.
Qed.

Lemma good_fresh cfg rest : good f items cfg rest -> open_inners cfg.1 !! spawned cfg.1 = None.
Proof.
  intros G. destruct (open_inners cfg.1 !! spawned cfg.1) as [script|] eqn:E; [|reflexivity].
  apply (good_inners _ _ _ _ G) in E. lia.
Qed.

Lemma good_advance cfg rest c :
  c <> Cancel -> good f items cfg rest -> exists rest', good f items (advance w cfg c) rest'.
Proof.
  intros Hc G. destruct (terminated cfg.1) eqn:Hterm.
  { rewrite advance_terminated by exact Hterm. exists rest. exact G. }
  pose proof (good_fresh _ _ G) as Hfresh.
  destruct G as [Hphase Hrest Hinn Hperm Hdel].
  destruct cfg as [[src sc open sp term] tr]. simpl in *. subst term.
  rewrite app_nil_r in Hdel.
  unfold advance, step. cbn [fst snd terminated].
  destruct c as [|i|]; [| |congruence].
  - unfold from_source. cbn [source_sub open_inners spawned source_completed].
    destruct Hphase as [(Hsrc & Hsc & _)|(Hsrc & Hsc & Hnil & Hne & _)].
    + subst src sc. destruct rest as [|a rest]; cbn [rx_of map app].
      * destruct (Nat.eqb_spec (size open) 0) as [Hsize|Hsize]; exists [].
        -- apply map_size_empty_iff in Hsize. subst open.
           split; cbn [fst snd source_sub source_completed open_inners spawned terminated].
           ++ right. auto.
           ++ exact Hrest.
           ++ intros i script H. rewrite lookup_empty in H. discriminate.
           ++ rewrite delivered_app, payloads_app. simpl. rewrite app_nil_r. exact Hperm.
           ++ rewrite delivered_app, payloads_app. simpl. rewrite app_nil_r.
              rewrite <- Hdel. reflexivity.
        -- apply map_size_non_empty_iff in Hsize.
           split; cbn [fst snd source_sub source_completed open_inners spawned terminated].
           ++ right. repeat split; [auto | congruence].
           ++ exact Hrest.
           ++ exact Hinn.
           ++ rewrite delivered_app. simpl. rewrite app_nil_r. exact Hperm.
           ++ rewrite delivered_app. simpl. rewrite !app_nil_r. exact Hdel.
      * destruct (Hw a) as [secs Hwa]; [apply Hrest; left; reflexivity|].
        rewrite Hwa. cbn [result slept]. exists rest.
        split; cbn [fst snd source_sub source_completed open_inners spawned terminated].
        -- left. auto.
        -- intros a' Ha'. apply Hrest. right. exact Ha'.
        -- intros i script. rewrite lookup_insert. case_decide as Hi.
           ++ intros [= <-]. subst i. split; [lia|]. right. exists (f a). reflexivity.
           ++ intros H. apply Hinn in H. split; [lia | tauto].
        -- rewrite delivered_app. simpl (delivered [_; _]). rewrite app_nil_r.
           rewrite (backlog_insert_fresh open sp _ Hfresh).
           rewrite <- Hperm. rewrite payloads_app. simpl (payloads (rx_of [f a])).
           simpl (map f (a :: rest)).
           apply Permutation_app_head. simpl.
           apply Permutation_middle.
        -- rewrite delivered_app. simpl (delivered [_; _]). rewrite !app_nil_r. exact Hdel.
    + subst src sc rest. exists []. cbn [fst snd]. rewrite app_nil_r.
      split; cbn [fst snd source_sub source_completed open_inners spawned terminated];
        [right; repeat split; [exact Hne | congruence] | exact Hrest | exact Hinn
        | exact Hperm | rewrite app_nil_r; exact Hdel].
  - unfold from_inner. cbn [source_sub open_inners spawned source_completed].
    destruct (open !! i) as [script|] eqn:Hi.
    2:{ exists rest. cbn [fst snd]. rewrite app_nil_r.
        split; cbn [fst snd source_sub source_completed open_inners spawned terminated];
          [exact Hphase | exact Hrest | exact Hinn | exact Hperm
          | rewrite app_nil_r; exact Hdel]. }
    destruct (Hinn i script Hi) as [Hlt [->|[b ->]]].
    + (* the inner stream completes *)
      pose proof (backlog_delete open i _ Hi) as Hback.
      destruct (sc && Nat.eqb (size (delete i open)) 0) eqn:Hlast.
      * apply andb_true_iff in Hlast as [-> Hsize].
        apply Nat.eqb_eq, map_size_empty_iff in Hsize.
        destruct Hphase as [(_ & Hsc & _)|(Hsrc & _ & Hnil & _)]; [discriminate|].
        subst rest. exists [].
        split; cbn [fst snd source_sub source_completed open_inners spawned terminated].
        -- right. auto.
        -- exact Hrest.
        -- intros j script H. rewrite lookup_empty in H. discriminate.
        -- rewrite delivered_app, payloads_app. simpl. rewrite app_nil_r.
           rewrite <- Hperm, Hback, Hsize. simpl. reflexivity.
        -- rewrite delivered_app, payloads_app. simpl. rewrite app_nil_r.
           rewrite <- Hdel. reflexivity.
      * exists rest.
        split; cbn [fst snd source_sub source_completed open_inners spawned terminated].
        -- destruct Hphase as [H|(Hsrc & Hsc & Hnil & _)]; [left; exact H|].
           right. subst sc. simpl in Hlast.
           apply Nat.eqb_neq, map_size_non_empty_iff in Hlast.
           repeat split; [exact Hsrc | exact Hnil | auto | congruence].
        -- exact Hrest.
        -- intros j script. rewrite lookup_delete. case_decide; [discriminate|].
           apply Hinn.
        -- rewrite delivered_app. simpl. rewrite app_nil_r.
           rewrite <- Hperm, Hback. simpl. reflexivity.
        -- rewrite delivered_app. simpl. rewrite !app_nil_r. exact Hdel.
    + (* the inner stream emits its value *)
      pose proof (backlog_delete open i _ Hi) as Hback.
      pose proof (backlog_update open i _ [Completed] Hi) as Hback'.
      exists rest.
      split; cbn [fst snd source_sub source_completed open_inners spawned terminated].
      * destruct Hphase as [H|(Hsrc & Hsc & Hnil & _)]; [left; exact H|].
        right. repeat split; [exact Hsrc | exact Hsc | exact Hnil | | congruence].
        intros _ Hempty. apply (f_equal (fun m => m !! i)) in Hempty.
        rewrite lookup_insert_eq, lookup_empty in Hempty. discriminate.
      * exact Hrest.
      * intros j script. rewrite lookup_insert. case_decide.
        -- intros [= <-]. subst j. split; [exact Hlt | left; reflexivity].
        -- apply Hinn.
      * rewrite delivered_app, payloads_app. simpl (payloads (delivered [_])).
        rewrite <- Hperm, Hback, Hback'. simpl.
        rewrite <- app_assoc. simpl. apply Permutation_app_head.
        reflexivity.
      * rewrite delivered_app, payloads_app. simpl (delivered [_]).
        simpl (payloads [_]). rewrite map_app, app_nil_r. simpl. rewrite <- Hdel.
        reflexivity.
Qed.

Lemma good_progress cfg rest :
  good f items cfg rest -> terminated cfg.1 = false ->
  exists c, c <> Cancel /\ work (advance w cfg c).1 < work cfg.1.
Proof.
  intros G Hterm. pose proof (good_fresh _ _ G) as Hfresh.
  destruct G as [Hphase Hrest Hinn _ _].
  destruct cfg as [[src sc open sp term] tr]. simpl in *. subst term.
  destruct Hphase as [(Hsrc & Hsc & _)|(Hsrc & Hsc & Hnil & Hne & _)].
  - exists FromSource. split; [discriminate|].
    unfold advance, step, from_source, work.
    cbn [fst snd terminated source_sub open_inners spawned source_completed].
    subst src. destruct rest as [|a rest]; cbn [rx_of map app].
    + destruct (Nat.eqb_spec (size open) 0) as [Hsize|Hsize];
        cbn [fst source_sub open_inners]; [rewrite backlog_empty|]; simpl; lia.
    + destruct (Hw a) as [secs Hwa]; [apply Hrest; left; reflexivity|].
      rewrite Hwa. cbn [result fst source_sub open_inners].
      rewrite (backlog_insert_fresh open sp _ Hfresh). simpl. lia.
  - destruct (map_choose open (Hne eq_refl)) as (i & script & Hi).
    exists (FromInner i). split; [discriminate|].
    unfold advance, step, from_inner, work.
    cbn [fst snd terminated source_sub open_inners spawned source_completed].
    rewrite Hi. rewrite (backlog_delete open i _ Hi).
    destruct (Hinn i script Hi) as [_ [->|[b ->]]].
    + destruct (sc && Nat.eqb (size (delete i open)) 0);
        cbn [fst source_sub open_inners]; [rewrite backlog_empty|]; subst src; simpl; lia.
    + cbn [fst source_sub open_inners].
      rewrite (backlog_update open i _ [Completed] Hi). simpl. lia.
Qed.

Lemma good_completes n : forall cfg rest,
  good f items cfg rest -> work cfg.1 <= n ->
  exists sched, no_cancel sched /\ terminated (run_from w sched cfg).1 = true.
Proof.
  induction n as [|n IH]; intros cfg rest G Hn.
  - destruct (terminated cfg.1) eqn:Hterm; [exists []; split; [constructor | exact Hterm]|].
    destruct (good_progress _ _ G Hterm) as (c & _ & Hlt). lia.
  - destruct (terminated cfg.1) eqn:Hterm; [exists []; split; [constructor | exact Hterm]|].
    destruct (good_progress _ _ G Hterm) as (c & Hc & Hlt).
    destruct (good_advance _ _ c Hc G) as [rest' G'].
    destruct (IH _ _ G' ltac:(lia)) as (sched & Hsched & Hdone).
    exists (c :: sched). split; [constructor; assumption | exact Hdone].
Qed.

Lemma good_run sched :
  no_cancel sched -> exists rest, good f items (run (flat_map w (rx_of items)) sched) rest.
Proof.
  intros Hsched.
  apply (run_from_invariant w (fun cfg => exists rest, good f items cfg rest)
           (fun c => c <> Cancel)); [exists items; apply good_init| |exact Hsched].
  intros cfg c Hc [rest G]. exact (good_advance _ _ c Hc G).
Qed.

(** A run of the merged stream that is not cancelled and has terminated
    delivered the worker's outputs for the items, in some order, and
    then [Completed]. *)
Lemma merged_complete sched :
  no_cancel sched ->
  terminated (run (flat_map w (rx_of items)) sched).1 = true ->
  exists vs, delivered (run (flat_map w (rx_of items)) sched).2 = map Next vs ++ [Completed] /\
             vs ≡ₚ map f items.
Proof.
  intros Hsched Hterm. destruct (good_run sched Hsched) as [rest G].
  destruct G as [Hphase _ _ Hperm Hdel]. rewrite Hterm in Hdel.
  eexists. split; [exact Hdel|].
  destruct Hphase as [(_ & _ & Hopen)|(_ & _ & -> & _ & Hempty)]; [congruence|].
  rewrite (Hempty Hterm), backlog_empty in Hperm. simpl in Hperm.
  rewrite app_nil_r in Hperm. exact Hperm.
Qed.

(** Any run that is not cancelled can be continued to termination. *)
Lemma merged_terminates sched :
  no_cancel sched ->
  exists more, no_cancel more /\
    terminated (run (flat_map w (rx_of items)) (sched ++ more)).1 = true.
Proof.
  intros Hsched. destruct (good_run sched Hsched) as [rest G].
  destruct (good_completes _ _ _ G (le_n _)) as (more & Hmore & Hdone).
  exists more. split; [exact Hmore|].
  unfold run in *. rewrite run_from_app. exact Hdone.
Qed.

End MergedOf.

(** C1: for every finite list of items and every worker that maps each
    item [a] to an observable emitting the single [Next (f a)] and then
    [Completed], a subscription to [flat_map worker (rx.of items)] that
    is not cancelled and has terminated delivered the worker outputs of
    the items, each once, in some order, followed by exactly one
    [Completed]; that [Completed] is the last event of the run, after the
    source has completed and every inner subscription opened has
    completed; and every such run can be continued to that end. *)
Theorem flat_map_of_delivers_all {A B : Type} (w : Worker A B) (f : A -> B)
    (items : list A) (sched : list choice) :
  (forall a, In a items ->
     exists secs, w a = MkInvocation secs (Returned [Next (f a); Completed])) ->
  uncancelled sched = true ->
  (terminated (run (flat_map w (rx_of items)) sched).1 = true ->
   exists vs : list B,
     delivered (run (flat_map w (rx_of items)) sched).2 = map Next vs ++ [Completed] /\
     vs ≡ₚ map f items /\
     (forall b, In b vs <-> In b (map f items)) /\
     completed_last (run (flat_map w (rx_of items)) sched).2) /\
  (exists more : list choice,
     uncancelled more = true /\
     terminated (run (flat_map w (rx_of items)) (sched ++ more)).1 = true).
Proof.
  intros Hw Hsched. apply uncancelled_no_cancel in Hsched. split.
  - intros Hterm.
    destruct (merged_complete w f items Hw sched Hsched Hterm) as (vs & Hdel & Hperm).
    exists vs. split; [exact Hdel|]. split; [exact Hperm|]. split.
    + intros b. rewrite <- !list_elem_of_In. rewrite Hperm. reflexivity.
    + apply completion_guard, delivered_In. rewrite Hdel, in_app_iff.
      right. left. reflexivity.
  - destruct (merged_terminates w f items Hw sched Hsched) as (more & Hmore & Hdone).
    exists more. split; [apply no_cancel_uncancelled, Hmore | exact Hdone].
Qed.

Lemma flat_map_of_delivers_all_witness :
  exists vs : list string,
    delivered (run (flat_map process_command_timeout
                      (rx_of ["echo before"; "sleep"; "echo after"]))
                 (trampoline 3)).2 = map Next vs ++ [Completed] /\
    vs ≡ₚ ["echo before"; "awake"; "echo after"].
Proof.
  destruct (flat_map_of_delivers_all process_command_timeout command_result
              ["echo before"; "sleep"; "echo after"] (trampoline 3)) as [H _].
  - intros cmd _. eexists. apply process_command_returns.
  - reflexivity.
  - destruct H as (vs & Hdel & Hperm & _); [vm_compute; reflexivity|].
    exists vs. split; [exact Hdel | exact Hperm].
Defined.

(** ** The merged stream under the trampoline *)

Section Trampoline.
Context {A B : Type} (w : Worker A B) (f : A -> B).
Hypothesis Hw : forall a, exists secs, w a = MkInvocation secs (Returned (rx_of [f a])).

Lemma inners_of_above (k j : nat) (bs : list B) :
  j < k -> inners_of k bs !! j = None.
Proof.
  revert k. induction bs as [|b bs IH]; intros k Hj; simpl.
  - apply lookup_empty.
  - rewrite lookup_insert_ne by lia. apply IH. lia.
Qed.

Lemma run_from_cons c sched (cfg : FlatMapState A B * list (event B)) :
  run_from w (c :: sched) cfg = run_from w sched (advance w cfg c).
Proof. reflexivity. Qed.

Lemma advance_source_next a rest sc open sp tr secs inner :
  w a = MkInvocation secs (Returned inner) ->
  advance w (MkFlatMapState (Some (Next a :: rest)) sc open sp false, tr) FromSource
  = (MkFlatMapState (Some rest) sc (<[sp := inner]> open) (S sp) false,
     tr ++ [EvInvoked sp secs; EvSubscribed sp]).
Proof.
  intros H. unfold advance, step, from_source. simpl. rewrite H. reflexivity.
Qed.

Lemma advance_inner_next i b rest src sc open sp tr :
  open !! i = Some (Next b :: rest) ->
  advance w (MkFlatMapState src sc open sp false, tr) (FromInner i)
  = (MkFlatMapState src sc (<[i := rest]> open) sp false, tr ++ [EvDeliver (Next b)]).
Proof.
  intros H. unfold advance, step, from_inner. simpl. rewrite H. reflexivity.
Qed.

Lemma advance_inner_completed i rest src sc open sp tr :
  open !! i = Some (Completed :: rest) ->
  advance w (MkFlatMapState src sc open sp false, tr) (FromInner i)
  = if sc && Nat.eqb (size (delete i open)) 0
    then (MkFlatMapState None true ∅ sp true,
          tr ++ [EvInnerCompleted i; EvDeliver Completed])
    else (MkFlatMapState src sc (delete i open) sp false, tr ++ [EvInnerCompleted i]).
Proof.
  intros H. unfold advance, step, from_inner. simpl. rewrite H.
  destruct (sc && Nat.eqb (size (delete i open)) 0); reflexivity.
Qed.

Lemma source_phase (items : list A) : forall open sp tr,
  (forall j, sp <= j -> open !! j = None) ->
  exists tr',
    run_from w (repeat FromSource (length items))
      (MkFlatMapState (Some (rx_of items)) false open sp false, tr)
    = (MkFlatMapState (Some [Completed]) false (inners_of sp (map f items) ∪ open)
         (sp + length items) false, tr') /\
    delivered tr' = delivered tr.
Proof.
  induction items as [|a items IH]; intros open sp tr Hfree.
  - exists tr. simpl. rewrite (left_id_L ∅ (∪)), Nat.add_0_r. split; reflexivity.
  - destruct (Hw a) as [secs Hwa].
    cbn [length repeat]. rewrite run_from_cons.
    change (rx_of (a :: items)) with (Next a :: rx_of items).
    rewrite (advance_source_next _ _ _ _ _ _ _ _ Hwa).
    destruct (IH (<[sp := rx_of [f a]]> open) (S sp)
                (tr ++ [EvInvoked sp secs; EvSubscribed sp])) as (tr' & Hrun & Hdel).
    { intros j Hj. rewrite lookup_insert_ne by lia. apply Hfree. lia. }
    exists tr'. rewrite Hrun. split.
    + f_equal. f_equal; [|lia]. simpl.
      rewrite <- insert_union_r by (apply inners_of_above; lia).
      rewrite insert_union_l. reflexivity.
    + rewrite Hdel, delivered_app. simpl. apply app_nil_r.
Qed.

Lemma drain_phase (bs : list B) : forall b k sp tr,
  exists tr',
    run_from w (drain k (S (length bs)))
      (MkFlatMapState None true (inners_of k (b :: bs)) sp false, tr)
    = (MkFlatMapState None true ∅ sp true, tr') /\
    delivered tr' = delivered tr ++ map Next (b :: bs) ++ [Completed].
Proof.
  induction bs as [|b' bs IH]; intros b k sp tr.
  - cbn [length drain seq mbind list_bind app]. rewrite !run_from_cons.
    cbn [inners_of].
    rewrite (advance_inner_next k b [Completed]) by apply lookup_insert_eq.
    rewrite insert_insert_eq.
    rewrite (advance_inner_completed k []) by apply lookup_insert_eq.
    rewrite delete_insert_eq, delete_empty, map_size_empty. cbn [andb Nat.eqb].
    eexists. split; [reflexivity|].
    rewrite <- app_assoc, delivered_app. reflexivity.
  - cbn [length]. unfold drain. cbn [seq mbind list_bind app].
    rewrite !run_from_cons.
    change (inners_of k (b :: b' :: bs))
      with (<[k := rx_of [b]]> (inners_of (S k) (b' :: bs))).
    rewrite (advance_inner_next k b [Completed]) by apply lookup_insert_eq.
    rewrite insert_insert_eq.
    rewrite (advance_inner_completed k []) by apply lookup_insert_eq.
    rewrite delete_insert_eq.
    rewrite (delete_id (inners_of (S k) (b' :: bs))) by (apply inners_of_above; lia).
    replace (Nat.eqb (size (inners_of (S k) (b' :: bs))) 0) with false.
    2:{ symmetry. apply Nat.eqb_neq, map_size_non_empty_iff.
        cbn [inners_of]. apply insert_non_empty. }
    cbn [andb].
    destruct (IH b' (S k) sp ((tr ++ [EvDeliver (Next b)]) ++ [EvInnerCompleted k]))
      as (tr' & Hrun & Hdel).
    exists tr'. split; [exact Hrun|].
    rewrite Hdel, !delivered_app. simpl. rewrite app_nil_r, <- app_assoc. reflexivity.
Qed.

(** Under the trampoline, the merged stream of [rx.of items] delivers the
    worker's outputs in the order of the items, then [Completed]. *)
Lemma trampoline_in_order (items : list A) :
  delivered (run (flat_map w (rx_of items)) (trampoline (length items))).2
  = map Next (map f items) ++ [Completed].
Proof.
  unfold run, trampoline, drain.
  replace (repeat FromSource (S (length items)))
    with (repeat FromSource (length items) ++ [FromSource])
    by (rewrite <- repeat_cons; reflexivity).
  rewrite <- app_assoc, !run_from_app.
  destruct (source_phase items ∅ 0 []) as (tr1 & Hrun & Hdel).
  { intros j _. apply lookup_empty. }
  unfold subscribe_merged, flat_map. cbn [fm_source fm_worker].
  rewrite Hrun. rewrite (right_id_L ∅ (∪)). cbn [Nat.add].
  cbn [run_from fold_left]. unfold advance at 1, step, from_source.
  cbn [fst snd terminated source_sub open_inners spawned].
  destruct items as [|a items].
  - simpl. rewrite delivered_app, Hdel. reflexivity.
  - replace (Nat.eqb (size (inners_of 0 (map f (a :: items)))) 0) with false.
    2:{ symmetry. apply Nat.eqb_neq, map_size_non_empty_iff.
        cbn [map inners_of]. apply insert_non_empty. }
    cbn [fst snd map length].
    destruct (drain_phase (map f items) (f a) 0 (S (length items))
                (tr1 ++ [EvSourceCompleted])) as (tr2 & Hdrain & Hdel2).
    rewrite length_map in Hdrain. unfold drain in Hdrain.
    cbn [length]. rewrite Hdrain. cbn [snd].
    rewrite Hdel2, delivered_app, Hdel. simpl. reflexivity.
Qed.
End Trampoline.

(** ** The print sink *)

Lemma subscribe_fn_print_from (l : list (Notification string)) (out : stdout) :
  fold_left (feed print) l out = out ++ payloads l.
Proof.
  revert out. induction l as [|n l IH]; intros out; simpl.
  - rewrite app_nil_r. reflexivity.
  - rewrite IH. destruct n; simpl; [|reflexivity|reflexivity].
    unfold print. rewrite <- app_assoc. reflexivity.
Qed.

Lemma subscribe_fn_print (l : list (Notification string)) :
  subscribe_fn print l = payloads l.
Proof. unfold subscribe_fn. apply subscribe_fn_print_from. Qed.

(** Whatever the commands, the program prints the result string of each
    command, in the order of the commands, and nothing else. *)
Lemma main_output_trampoline (commands : list string) :
  main_output commands (trampoline (length commands)) = map command_result commands.
Proof.
  unfold main_output. rewrite subscribe_fn_print.
  change (process_commands (rx_of commands))
    with (flat_map process_command_timeout (rx_of commands)).
  rewrite (trampoline_in_order process_command_timeout command_result).
  - rewrite payloads_app, payloads_map. apply app_nil_r.
  - intros cmd. eexists. apply process_command_returns.
Qed.

(** C2 as the spec states it fails: for the all-echo commands
    "echo before", "echo after" the print sink is handed the two echoed
    strings and nothing else; the shutdown message would only be there
    had the notifications been reduced by [process_errors], which
    [process_commands] does not do. *)
Lemma print_sink_counterexample :
  main_output ["echo before"; "echo after"] (trampoline 2)
    = ["echo before"; "echo after"] /\
  reduced_output ["echo before"; "echo after"] (trampoline 2)
    = ["echo before"; "echo after"; "No more commands to process. Shutting down!"] /\
  main_output ["echo before"; "echo after"] (trampoline 2)
    <> reduced_output ["echo before"; "echo after"] (trampoline 2).
Proof.
  assert (main_output ["echo before"; "echo after"] (trampoline 2)
            = ["echo before"; "echo after"]) as Hmain by (vm_compute; reflexivity).
  assert (reduced_output ["echo before"; "echo after"] (trampoline 2)
            = ["echo before"; "echo after";
               "No more commands to process. Shutting down!"]) as Hspec
    by (vm_compute; reflexivity).
  split; [exact Hmain|]. split; [exact Hspec|].
  rewrite Hmain, Hspec. discriminate.
Qed.

(** C2, amended: the print sink is subscribed to the merged stream
    itself and receives the value of every [Next] and nothing for the
    terminal event; so for an all-echo command list, when the stream has
    completed, the output is the echoed command strings, each once - in
    the order of the commands when the work runs on the single-threaded
    trampoline -, and the shutdown message is not among them. *)
Theorem print_sink_receives_next_values (commands : list string) (sched : list choice) :
  all_echo commands = true ->
  uncancelled sched = true ->
  terminated (run (process_commands (rx_of commands)) sched).1 = true ->
  delivered (run (process_commands (rx_of commands)) sched).2
    = map Next (main_output commands sched) ++ [Completed] /\
  main_output commands sched ≡ₚ commands /\
  ~ In "No more commands to process. Shutting down!" (main_output commands sched) /\
  main_output commands (trampoline (length commands)) = commands.
Proof.
  intros Hecho Hsched Hterm. apply uncancelled_no_cancel in Hsched.
  destruct (merged_complete process_command_timeout command_result commands
              (fun cmd _ => ex_intro _ _ (process_command_returns cmd))
              sched Hsched Hterm) as (vs & Hdel & Hperm).
  rewrite (all_echo_results commands Hecho) in Hperm.
  assert (main_output commands sched = vs) as Hout.
  { unfold main_output. rewrite subscribe_fn_print.
    change (process_commands (rx_of commands))
      with (flat_map process_command_timeout (rx_of commands)).
    rewrite Hdel, payloads_app, payloads_map. apply app_nil_r. }
  rewrite Hout. split; [exact Hdel|]. split; [exact Hperm|].
  split; [|rewrite main_output_trampoline; exact (all_echo_results commands Hecho)].
  intros Hin. apply list_elem_of_In in Hin. rewrite Hperm in Hin.
  unfold all_echo in Hecho. rewrite forallb_forall in Hecho.
  apply list_elem_of_In, Hecho in Hin. discriminate Hin.
Qed.

Lemma print_sink_receives_next_values_witness :
  main_output ["echo before"; "echo after"] (trampoline 2)
    ≡ₚ ["echo before"; "echo after"] /\
  ~ In "No more commands to process. Shutting down!"
      (main_output ["echo before"; "echo after"] (trampoline 2)).
Proof.
  destruct (print_sink_receives_next_values ["echo before"; "echo after"] (trampoline 2))
    as (_ & Hperm & Hnot & _).
  - reflexivity.
  - reflexivity.
  - vm_compute. reflexivity.
  - split; [exact Hperm | exact Hnot].
Defined.

(** * Further properties *)

(** ** The command worker: blocking, messages, results *)

Lemma string_length_app (s t : string) :
  String.length (s +:+ t) = String.length s + String.length t.
Proof. induction s as [|a s IH]; [reflexivity | simpl; rewrite IH; reflexivity]. Qed.

Lemma substring_app_head (s t : string) :
  String.substring 0 (String.length s) (s +:+ t) = s.
Proof.
  induction s as [|a s IH]; simpl.
  - destruct t; reflexivity.
  - rewrite IH. reflexivity.
Qed.

Lemma substring_app_skip (p s : string) (m : nat) :
  String.substring (String.length p) m (p +:+ s) = String.substring 0 m s.
Proof. induction p as [|a p IH]; [reflexivity | exact IH]. Qed.

Lemma echo_not_sleep (cmd : string) :
  startswith cmd "echo" = true -> startswith cmd "sleep" = false.
Proof. intros H. apply startswith_spec in H as [rest ->]. reflexivity. Qed.

Lemma process_command_slept (cmd : string) :
  slept (process_command cmd) = if startswith cmd "sleep" then 10 else 0.
Proof.
  unfold process_command. destruct (startswith cmd "echo") eqn:Hecho.
  - rewrite (echo_not_sleep cmd Hecho). reflexivity.
  - destruct (startswith cmd "sleep"); reflexivity.
Qed.

(** X1: only sleep-prefixed commands block, and they block for ten
    seconds; no command is both echo- and sleep-prefixed, so the order
    of the two tests does not matter. *)
Theorem process_command_blocking (cmd : string) :
  slept (process_command cmd) = (if startswith cmd "sleep" then 10 else 0) /\
  (startswith cmd "echo" && startswith cmd "sleep" = false) /\
  process_command cmd =
    (if startswith cmd "sleep" then (time_sleep 10 ;;; ret (rx_of ["awake"]))
     else if startswith cmd "echo" then ret (rx_of [cmd])
     else ret (rx_of [format_invalid cmd])).
Proof.
  unfold process_command.
  destruct (startswith cmd "echo") eqn:Hecho.
  - rewrite (echo_not_sleep cmd Hecho). repeat split.
  - destruct (startswith cmd "sleep"); repeat split.
Qed.

Lemma format_invalid_length (cmd : string) :
  String.length (format_invalid cmd) = 26 + String.length cmd.
Proof. unfold format_invalid. rewrite !string_length_app. simpl. lia. Qed.

Lemma format_invalid_substring (cmd : string) :
  String.substring 16 (String.length cmd) (format_invalid cmd) = cmd.
Proof.
  unfold format_invalid. change 16 with (String.length "Invalid command ").
  rewrite substring_app_skip. apply substring_app_head.
Qed.

Lemma format_invalid_inj (cmd cmd' : string) :
  format_invalid cmd = format_invalid cmd' -> cmd = cmd'.
Proof.
  intros Heq. pose proof (format_invalid_length cmd) as Hlen.
  rewrite Heq, format_invalid_length in Hlen.
  rewrite <- (format_invalid_substring cmd), <- (format_invalid_substring cmd'), Heq.
  f_equal. lia.
Qed.

(** X2: the invalid-command message is 26 characters longer than the
    command and holds it verbatim from position 16 on, so the command can
    be read back from the message and different commands get different
    messages. *)
Theorem format_invalid_round_trip (cmd : string) :
  String.length (format_invalid cmd) = 26 + String.length cmd /\
  String.substring 16 (String.length cmd) (format_invalid cmd) = cmd /\
  (forall cmd' : string, format_invalid cmd = format_invalid cmd' -> cmd = cmd').
Proof.
  split; [apply format_invalid_length|]. split; [apply format_invalid_substring|].
  apply format_invalid_inj.
Qed.

Lemma format_invalid_round_trip_witness :
  String.substring 16 5 "Invalid command bogus provided." = "bogus" /\ "bogus" = "bogus".
Proof.
  destruct (format_invalid_round_trip "bogus") as (_ & Hsub & Hinj).
  split; [exact Hsub | apply Hinj; reflexivity].
Defined.

Lemma command_result_cases (cmd : string) :
  (startswith cmd "echo" = true /\ command_result cmd = cmd) \/
  (startswith cmd "echo" = false /\ startswith cmd "sleep" = true /\
   command_result cmd = "awake") \/
  (startswith cmd "echo" = false /\ startswith cmd "sleep" = false /\
   command_result cmd = format_invalid cmd).
Proof.
  unfold command_result.
  destruct (startswith cmd "echo"); [left; auto|].
  destruct (startswith cmd "sleep"); [right; left; auto | right; right; auto].
Qed.

Lemma format_invalid_not_echo (cmd : string) :
  startswith (format_invalid cmd) "echo" = false.
Proof. reflexivity. Qed.

Lemma command_result_inj (cmd1 cmd2 : string) :
  command_result cmd1 = command_result cmd2 ->
  cmd1 = cmd2 \/ (startswith cmd1 "sleep" = true /\ startswith cmd2 "sleep" = true).
Proof.
  destruct (command_result_cases cmd1) as [(E1 & ->)|[(E1 & S1 & ->)|(E1 & S1 & ->)]];
  destruct (command_result_cases cmd2) as [(E2 & ->)|[(E2 & S2 & ->)|(E2 & S2 & ->)]];
  intros Heq.
  - left. exact Heq.
  - subst cmd1. discriminate E1.
  - subst cmd1. rewrite format_invalid_not_echo in E1. discriminate E1.
  - subst cmd2. discriminate E2.
  - right. split; assumption.
  - discriminate Heq.
  - subst cmd2. rewrite format_invalid_not_echo in E2. discriminate E2.
  - discriminate Heq.
  - left. apply format_invalid_inj, Heq.
Qed.

(** X3: the observable the worker returns tells the command, except
    among sleep commands: two commands with the same returned observable
    are equal or both sleep-prefixed. *)
Theorem process_command_injective (cmd1 cmd2 : string) :
  result (process_command cmd1) = result (process_command cmd2) ->
  cmd1 = cmd2 \/ (startswith cmd1 "sleep" = true /\ startswith cmd2 "sleep" = true).
Proof.
  rewrite !process_command_returns. cbn [result]. intros Heq.
  apply command_result_inj. unfold rx_of in Heq. simpl in Heq. congruence.
Qed.

Lemma process_command_injective_witness :
  "sleep 1" = "sleep 2" \/
  (startswith "sleep 1" "sleep" = true /\ startswith "sleep 2" "sleep" = true).
Proof. apply (process_command_injective "sleep 1" "sleep 2"). reflexivity. Defined.

(** X4: the string a command's observable carries is never one of the
    two fixed messages of [process_errors]; so a notification that
    [process_errors] reduces to a worker's result string is the [Next]
    carrying it, not an [Error] or [Completed]. *)
Theorem worker_results_are_not_terminal_messages (cmd : string) :
  result (process_command cmd) = Returned [Next (command_result cmd); Completed] /\
  command_result cmd <> "Your command could not be processed. Please try again." /\
  command_result cmd <> "No more commands to process. Shutting down!" /\
  (forall notif : Notification string,
     process_errors notif = command_result cmd -> notif = Next (command_result cmd)).
Proof.
  assert (forall msg : string,
            startswith msg "echo" = false -> msg <> "awake" ->
            (forall c, msg <> format_invalid c) ->
            command_result cmd <> msg) as Hneq.
  { intros msg Hecho Hawake Hinv Heq.
    destruct (command_result_cases cmd) as [(E & H)|[(E & S & H)|(E & S & H)]];
      rewrite H in Heq.
    - subst cmd. congruence.
    - congruence.
    - exact (Hinv cmd (eq_sym Heq)). }
  assert (command_result cmd <> "Your command could not be processed. Please try again.")
    as Hadvisory by (apply Hneq; [reflexivity | discriminate | discriminate]).
  assert (command_result cmd <> "No more commands to process. Shutting down!")
    as Hshutdown by (apply Hneq; [reflexivity | discriminate | discriminate]).
  split; [rewrite process_command_returns; reflexivity|].
  split; [exact Hadvisory|]. split; [exact Hshutdown|].
  intros [v|e|]; simpl; intros Heq.
  - rewrite Heq. reflexivity.
  - symmetry in Heq. contradiction.
  - symmetry in Heq. contradiction.
Qed.

Lemma worker_results_are_not_terminal_messages_witness :
  Next "echo a" = Next (command_result "echo a").
Proof.
  destruct (worker_results_are_not_terminal_messages "echo a") as (_ & _ & _ & H).
  apply (H (Next "echo a")). reflexivity.
Defined.



(** ** Blocking time of a run *)

Lemma blocked_app {B} (tr1 tr2 : list (event B)) :
  blocked (tr1 ++ tr2) = blocked tr1 + blocked tr2.
Proof. unfold blocked. rewrite omap_app, sum_list_with_app. reflexivity. Qed.

(** Calling the cancellation handle ends a run: what follows it in the
    schedule leaves no event. *)
Lemma cancel_cuts_run {A B} (w : Worker A B) (sched : list choice) :
  forall cfg : FlatMapState A B * list (event B),
  exists pre, no_cancel pre /\ (run_from w sched cfg).2 = (run_from w pre cfg).2.
Proof.
  induction sched as [|c sched IH]; intros cfg.
  - exists []. split; [constructor | reflexivity].
  - assert (c = Cancel \/ c <> Cancel) as [->|Hc]
      by (destruct c; [right; discriminate | right; discriminate | left; reflexivity]).
    + exists []. split; [constructor|].
      cbn [run_from fold_left].
      assert (terminated (advance w cfg Cancel).1 = true /\
              (advance w cfg Cancel).2 = cfg.2) as [Hterm Htr].
      { unfold advance, step. destruct (terminated cfg.1) eqn:E; simpl.
        - rewrite E, app_nil_r. split; reflexivity.
        - rewrite app_nil_r. split; reflexivity. }
      fold (run_from w sched (advance w cfg Cancel)).
      rewrite run_from_terminated by exact Hterm. exact Htr.
    + destruct (IH (advance w cfg c)) as (pre & Hpre & Heq).
      exists (c :: pre). split; [constructor; assumption | exact Heq].
Qed.

Section MergedBlocking.
Context {A B : Type} (w : Worker A B) (f : A -> B) (items : list A).
Hypothesis Hw : forall a, In a items ->
  exists secs, w a = MkInvocation secs (Returned (rx_of [f a])).

Lemma good_remaining cfg rest : good f items cfg rest -> remaining cfg.1 = rest.
Proof.
  intros G. unfold remaining.
  destruct (good_phase _ _ _ _ G) as [(-> & _)|(-> & _ & -> & _)]; [|reflexivity].
  unfold rx_of. rewrite payloads_app, payloads_map. apply app_nil_r.
Qed.

Lemma blocked_advance cfg rest c :
  c <> Cancel -> good f items cfg rest ->
  blocked (advance w cfg c).2 + total_slept w (remaining (advance w cfg c).1)
  = blocked cfg.2 + total_slept w (remaining cfg.1).
Proof.
  intros Hc G. destruct (terminated cfg.1) eqn:Hterm.
  { rewrite advance_terminated by exact Hterm. reflexivity. }
  destruct G as [Hphase Hrest Hinn _ _].
  destruct cfg as [[src sc open sp term] tr]. simpl in *. subst term.
  unfold advance, step. cbn [fst snd terminated].
  destruct c as [|i|]; [| |congruence].
  - unfold from_source. cbn [source_sub open_inners spawned source_completed].
    destruct Hphase as [(-> & -> & _)|(-> & _)].
    + destruct rest as [|a rest]; cbn [rx_of map app].
      * destruct (Nat.eqb (size open) 0); cbn [fst snd];
          rewrite blocked_app; unfold blocked, remaining, total_slept; simpl; lia.
      * destruct (Hw a) as [secs Hwa]; [apply Hrest; left; reflexivity|].
        rewrite Hwa. cbn [result slept fst snd]. rewrite blocked_app.
        unfold blocked, remaining, total_slept. simpl.
        rewrite payloads_app, payloads_map, Hwa. simpl. lia.
    + cbn [fst snd]. rewrite app_nil_r. reflexivity.
  - unfold from_inner. cbn [source_sub open_inners spawned source_completed].
    destruct (open !! i) as [script|] eqn:Hi;
      [|cbn [fst snd]; rewrite app_nil_r; reflexivity].
    destruct (Hinn i script Hi) as [_ [->|[b ->]]].
    + destruct (sc && Nat.eqb (size (delete i open)) 0) eqn:Hlast;
        cbn [fst snd]; rewrite blocked_app;
        unfold blocked, remaining, total_slept; simpl; [|lia].
      apply andb_true_iff in Hlast as [-> _].
      destruct Hphase as [(_ & Hsc & _)|(-> & _)]; [discriminate|]. simpl. lia.
    + cbn [fst snd]. rewrite blocked_app.
      unfold blocked, remaining, total_slept. simpl. lia.
Qed.

(** In a run that is not cancelled, the time blocked so far and the time
    the remaining items will block add up to the time of all items. *)
Lemma blocked_run sched :
  no_cancel sched ->
  blocked (run (flat_map w (rx_of items)) sched).2
  + total_slept w (remaining (run (flat_map w (rx_of items)) sched).1)
  = total_slept w items.
Proof.
  intros Hsched.
  enough (exists rest, good f items (run (flat_map w (rx_of items)) sched) rest /\
            blocked (run (flat_map w (rx_of items)) sched).2
            + total_slept w (remaining (run (flat_map w (rx_of items)) sched).1)
            = total_slept w items) as (_ & _ & H) by exact H.
  apply (run_from_invariant w
           (fun cfg => exists rest, good f items cfg rest /\
              blocked cfg.2 + total_slept w (remaining cfg.1) = total_slept w items)
           (fun c => c <> Cancel)); [| |exact Hsched].
  - exists items. split; [apply good_init|].
    unfold remaining, rx_of. simpl. rewrite payloads_app, payloads_map, app_nil_r.
    reflexivity.
  - intros cfg c Hc (rest & G & Heq).
    destruct (good_advance w f items Hw cfg rest c Hc G) as [rest' G'].
    exists rest'. split; [exact G'|].
    rewrite (blocked_advance cfg rest c Hc G). exact Heq.
Qed.




End MergedBlocking.

Lemma total_slept_commands (commands : list string) :
  total_slept process_command_timeout commands = 10 * sleepers commands.
Proof.
  unfold total_slept, sleepers.
  induction commands as [|cmd commands IH]; [reflexivity|].
  cbn [map sum_list_with List.filter]. rewrite IH.
  change (process_command_timeout cmd) with (process_command cmd).
  rewrite process_command_slept.
  destruct (startswith cmd "sleep"); simpl; lia.
Qed.

(** ** What the program prints *)

Lemma worker_returns_results (commands : list string) :
  forall cmd, In cmd commands ->
  exists secs, process_command_timeout cmd
               = MkInvocation secs (Returned (rx_of [command_result cmd])).
Proof. intros cmd _. eexists. apply process_command_returns. Qed.

Lemma main_output_payloads (commands : list string) (sched : list choice) :
  main_output commands sched
  = payloads (delivered (run (flat_map process_command_timeout (rx_of commands)) sched).2).
Proof. unfold main_output. apply subscribe_fn_print. Qed.







(** ** Head-of-line blocking *)

Lemma total_slept_app {A B} (w : Worker A B) (l1 l2 : list A) :
  total_slept w (l1 ++ l2) = total_slept w l1 + total_slept w l2.
Proof. unfold total_slept. rewrite map_app, sum_list_with_app. reflexivity. Qed.

Lemma total_slept_take {A B} (w : Worker A B) (n : nat) (l : list A) :
  total_slept w (take n l) <= total_slept w l.
Proof.
  rewrite <- (take_drop n l) at 2. rewrite total_slept_app. lia.
Qed.

(** The source only moves forward: what it has still to emit after a
    move is a final part of what it had to emit before. *)
Lemma remaining_step_suffix {A B} (w : Worker A B) (c : choice) (st : FlatMapState A B) :
  remaining (step w c st).1 `suffix_of` remaining st.
Proof.
  unfold step. destruct (terminated st); [reflexivity|].
  destruct c as [|i|]; unfold remaining.
  - unfold from_source. destruct (source_sub st) as [[|[a|e|] rest]|] eqn:Hsrc;
      cbn [fst]; try rewrite Hsrc; try reflexivity.
    + destruct (result (w a)); cbn [fst source_sub shut_down payloads].
      * simpl. apply suffix_cons_r. reflexivity.
      * apply suffix_nil.
    + apply suffix_nil.
    + destruct (Nat.eqb _ 0); apply suffix_nil.
  - unfold from_inner. destruct (open_inners st !! i) as [[|[b|e|] rest]|];
      cbn [fst source_sub shut_down]; try reflexivity.
    + apply suffix_nil.
    + destruct (source_completed st && _); cbn [fst source_sub];
        [apply suffix_nil | reflexivity].
  - apply suffix_nil.
Qed.

Lemma remaining_run_suffix {A B} (w : Worker A B) (sched : list choice)
    (cfg : FlatMapState A B * list (event B)) :
  remaining (run_from w sched cfg).1 `suffix_of` remaining cfg.1.
Proof.
  revert cfg. induction sched as [|c sched IH]; intros cfg; [reflexivity|].
  cbn [run_from fold_left]. fold (run_from w sched (advance w cfg c)).
  etransitivity; [apply IH|]. apply remaining_step_suffix.
Qed.

Section HeadOfLine.
Context {A B : Type} (w : Worker A B) (f : A -> B) (items : list A).
Hypothesis Hw : forall a, In a items ->
  exists secs, w a = MkInvocation secs (Returned (rx_of [f a])).

(** When [n] values have been delivered, the worker invocations for the
    first [n] items have already blocked the run. *)
Lemma blocked_covers_delivered sched :
  total_slept w
    (take (length (payloads (delivered (run (flat_map w (rx_of items)) sched).2))) items)
  <= blocked (run (flat_map w (rx_of items)) sched).2.
Proof.
  destruct (cancel_cuts_run w sched (subscribe_merged (flat_map w (rx_of items)), []))
    as (pre & Hpre & Heq).
  unfold run at 1 2. cbn [fm_worker flat_map]. cbn [fm_worker flat_map] in Heq.
  rewrite Heq.
  change (run_from w pre (subscribe_merged (flat_map w (rx_of items)), []))
    with (run (flat_map w (rx_of items)) pre).
  destruct (good_run w f items Hw pre Hpre) as [rest G].
  pose proof (blocked_run w f items Hw pre Hpre) as Hblocked.
  pose proof (remaining_run_suffix w pre (subscribe_merged (flat_map w (rx_of items)), []))
    as [done Hdone].
  change (run_from w pre (subscribe_merged (flat_map w (rx_of items)), []))
    with (run (flat_map w (rx_of items)) pre) in Hdone.
  rewrite (good_remaining f items _ _ G) in Hblocked, Hdone.
  assert (remaining (subscribe_merged (flat_map w (rx_of items))) = items) as Hinit.
  { unfold remaining, rx_of. simpl. rewrite payloads_app, payloads_map. apply app_nil_r. }
  cbn [fst] in Hdone. rewrite Hinit in Hdone.
  pose proof (good_perm _ _ _ _ G) as Hperm.
  apply Permutation_length in Hperm.
  rewrite !length_app, !length_map in Hperm.
  set (n := length (payloads (delivered (run (flat_map w (rx_of items)) pre).2))) in *.
  set (b := blocked (run (flat_map w (rx_of items)) pre).2) in *.
  clearbody n b. clear G Heq Hinit.
  rewrite Hdone, total_slept_app in Hblocked. rewrite Hdone, length_app in Hperm.
  rewrite Hdone, take_app_le by lia.
  pose proof (total_slept_take w n done). lia.
Qed.

End HeadOfLine.

(** X9: a sleep command holds back what follows it: when [n] lines have
    been printed, the run has already been blocked for the ten seconds of
    every sleep-prefixed command among the first [n] commands. *)
Theorem sleep_holds_back_output (commands : list string) (sched : list choice) :
  10 * sleepers (take (length (main_output commands sched)) commands)
  <= blocked (run (process_commands (rx_of commands)) sched).2.
Proof.
  rewrite <- total_slept_commands, main_output_payloads.
  apply (blocked_covers_delivered process_command_timeout command_result commands
           (worker_returns_results commands)).
Qed.
